(** * dewart-pg: a small shell for the pg package

    Shallow embedding of [src/index.js] (class [DewartPG], the first and
    current revision in the file: the one with the static registry, the
    [logs] switch and positional bind parameters) and the properties of
    its query executor, its hashed-placeholder template resolver and its
    life cycle.

    Layout:
    - outcomes of JavaScript evaluation (return / throw);
    - the host functions the class calls: [crypto.createHmac] (with a
      reference HMAC-SHA-256), [RegExp] and [String.prototype.replace];
    - the class itself, method by method, over a trace of observable
      events (console, pool, handlers);
    - the properties. *)

From Stdlib Require Import List String Ascii Bool Arith NArith Lia.
From Stdlib Require Import DecimalString.
Import ListNotations.

Set Implicit Arguments.

Local Open Scope string_scope.
Local Open Scope list_scope.

(* ================================================================== *)
(** ** Strings

    JavaScript strings are sequences of code units; the embedding keeps
    the one-byte code units, [ascii].  Host functions work on
    [list ascii]; the class works on [string]. *)

Definition chars : string -> list ascii := list_ascii_of_string.
Definition str : list ascii -> string := string_of_list_ascii.

(* ================================================================== *)
(** ** Errors and outcomes *)

(** The exceptions that can travel through the class.  The class itself
    only ever throws [Error(...)] with one of two fixed messages about
    the hash configuration; the others come from the host. *)
Inductive error : Type :=
| ConfigurationError              (* Error("The object's configurations do not contain a secret key ...") *)
| TypeError                       (* property access or call on undefined *)
| SyntaxError                     (* new RegExp on an invalid pattern *)
| DigestError                     (* createHmac on an unknown algorithm *)
| ConnectionError (code : nat)    (* the pool could not lease a client *)
| QueryError (code : nat).        (* the database rejected the statement *)

(** Result of evaluating a piece of JavaScript.  [Beyond] marks a run
    that leaves the part of the host this development describes (a
    regular expression construct outside the modelled syntax, a digest
    algorithm without a reference implementation): nothing is claimed
    about such a run, and no handler catches it. *)
Inductive outcome (A : Type) : Type :=
| Return (a : A)
| Throw (e : error)
| Beyond.

Arguments Return {A} a.
Arguments Throw {A} e.
Arguments Beyond {A}.

Definition obind {A B} (m : outcome A) (f : A -> outcome B) : outcome B :=
  match m with
  | Return a => f a
  | Throw e => Throw e
  | Beyond => Beyond
  end.

(* ================================================================== *)
(** ** Host: [crypto.createHmac]

    [createHmac(algorithm, key)] either throws (unknown algorithm) or
    gives an object whose [update(value).digest("hex")] is a function of
    the value.  Which algorithms exist depends on the host; the class is
    verified against any of them. *)

Inductive hmac_result : Type :=
| Hmac (digest_hex : string -> string)   (* update(value).digest("hex") *)
| InvalidDigest                          (* createHmac throws: unknown algorithm *)
| NoReference.                           (* an algorithm this development has no reference for *)

Class NodeCrypto : Type :=
  createHmac : string -> string -> hmac_result.

(** *** Reference SHA-256 (FIPS 180-4) and HMAC (RFC 2104)

    Words are [N] below [2^32], wrap-around written out. *)
Module SHA256.
Local Open Scope N_scope.

Definition mask32 : N := 0xFFFFFFFF.
Definition w32 (x : N) : N := N.land x mask32.
Definition add32 (x y : N) : N := w32 (x + y).
Definition rotr (n x : N) : N := N.lor (N.shiftr x n) (w32 (N.shiftl x (32 - n))).
Definition not32 (x : N) : N := N.lxor x mask32.

Definition Ch (x y z : N) : N := N.lxor (N.land x y) (N.land (not32 x) z).
Definition Maj (x y z : N) : N :=
  N.lxor (N.lxor (N.land x y) (N.land x z)) (N.land y z).
Definition bsig0 (x : N) : N := N.lxor (N.lxor (rotr 2 x) (rotr 13 x)) (rotr 22 x).
Definition bsig1 (x : N) : N := N.lxor (N.lxor (rotr 6 x) (rotr 11 x)) (rotr 25 x).
Definition ssig0 (x : N) : N := N.lxor (N.lxor (rotr 7 x) (rotr 18 x)) (N.shiftr x 3).
Definition ssig1 (x : N) : N := N.lxor (N.lxor (rotr 17 x) (rotr 19 x)) (N.shiftr x 10).

(** The constants are the first 32 bits of the fractional parts of the
    square roots (initial hash value) and cube roots (round constants)
    of the first primes; they are computed, not tabulated. *)
Definition is_prime (n : nat) : bool :=
  (2 <=? n)%nat && forallb (fun d => negb (Nat.modulo n d =? 0)%nat) (seq 2 (n - 2)).

Definition primes64 : list N :=
  Eval vm_compute in map N.of_nat (filter is_prime (seq 2 310)).

(** Integer cube root by bisection on the bits 35..0. *)
Definition icbrt (n : N) : N :=
  fold_left (fun r b => let c := r + N.shiftl 1 b in
                        if c * c * c <=? n then c else r)
            (map N.of_nat (rev (seq 0 36))) 0.

Definition K : list N :=
  Eval vm_compute in map (fun p => w32 (icbrt (N.shiftl p 96))) primes64.

Definition H0 : list N :=
  Eval vm_compute in map (fun p => w32 (N.sqrt (N.shiftl p 64))) (firstn 8 primes64).

(** Big-endian bytes of a word, and words of bytes. *)
Definition be_bytes (n : nat) (x : N) : list N :=
  map (fun i => N.land (N.shiftr x (8 * N.of_nat i)) 0xFF) (rev (seq 0 n)).

Definition be_word (bs : list N) : N :=
  fold_left (fun acc b => N.lor (N.shiftl acc 8) b) bs 0.

(** Padding: a 1 bit, zeros up to 56 mod 64 bytes, the bit length on 8 bytes. *)
Definition pad (msg : list N) : list N :=
  let len := List.length msg in
  let zeros := ((119 - Nat.modulo len 64) mod 64)%nat in
  msg ++ 0x80 :: repeat 0 zeros ++ be_bytes 8 (8 * N.of_nat len).

Fixpoint chunks (fuel n : nat) (l : list N) : list (list N) :=
  match fuel, l with
  | O, _ | _, [] => []
  | S f, _ => firstn n l :: chunks f n (skipn n l)
  end.

(** Message schedule, most recent word first. *)
Fixpoint schedule (n : nat) (ws : list N) : list N :=
  match n with
  | O => ws
  | S n' =>
      let w := add32 (add32 (ssig1 (nth 1 ws 0)) (nth 6 ws 0))
                     (add32 (ssig0 (nth 14 ws 0)) (nth 15 ws 0)) in
      schedule n' (w :: ws)
  end.

Definition round (st : list N) (kw : N * N) : list N :=
  match st with
  | [a; b; c; d; e; f; g; h] =>
      let t1 := add32 (add32 (add32 h (bsig1 e)) (add32 (Ch e f g) (fst kw))) (snd kw) in
      let t2 := add32 (bsig0 a) (Maj a b c) in
      [add32 t1 t2; a; b; c; add32 d t1; e; f; g]
  | _ => st
  end.

Definition compress (h : list N) (block : list N) : list N :=
  let w16 := map be_word (chunks 16 4 block) in
  let ws := rev (schedule 48 (rev w16)) in
  let st := fold_left round (combine K ws) h in
  map (fun p => add32 (fst p) (snd p)) (combine h st).

Definition digest (msg : list N) : list N :=
  let p := pad msg in
  let hs := fold_left compress (chunks (List.length p) 64 p) H0 in
  flat_map (be_bytes 4) hs.

(** HMAC with block size 64. *)
Definition hmac (key msg : list N) : list N :=
  let k0 := if (64 <? List.length key)%nat then digest key else key in
  let k := k0 ++ repeat 0 (64 - List.length k0) in
  let ipad := map (N.lxor 0x36) k in
  let opad := map (N.lxor 0x5c) k in
  digest (opad ++ digest (ipad ++ msg)).

Definition hex_digit (n : N) : ascii :=
  ascii_of_N (if n <? 10 then 48 + n else 87 + n).

Definition hex (bs : list N) : list ascii :=
  flat_map (fun b => [hex_digit (N.shiftr b 4); hex_digit (N.land b 0xF)]) bs.

(** The bytes [update] and [createHmac] take from a string: its UTF-8
    encoding, one byte for a code unit below 128 and two for the others. *)
Definition utf8 (c : N) : list N :=
  if c <? 128 then [c] else [N.lor 0xC0 (N.shiftr c 6); N.lor 0x80 (N.land c 0x3F)].

Definition bytes_of (s : string) : list N :=
  flat_map (fun c => utf8 (N_of_ascii c)) (chars s).

Definition hmac_hex (key msg : string) : string :=
  str (hex (hmac (bytes_of key) (bytes_of msg))).

Definition sha256_hex (msg : string) : string :=
  str (hex (digest (bytes_of msg))).
End SHA256.

(** The instance used for concrete runs: [sha256] has the reference
    implementation above; other algorithm names are beyond it. *)
Definition reference_crypto : NodeCrypto :=
  fun algorithm key =>
    if String.eqb algorithm "sha256" then Hmac (SHA256.hmac_hex key) else NoReference.

(* ================================================================== *)
(** ** Host: [RegExp] and [String.prototype.replace]

    [new RegExp(source, "g")] and [subject.replace(regexp, template)]
    after ECMA-262 (with the Annex B pattern grammar, no [u] flag), for
    the pattern syntax made of pattern characters, [.], [^], [$], [|],
    groups (capturing and [(?:]), the quantifiers [*], [+], [?],
    braces and their lazy forms, and escaped syntax characters.  Character
    classes, look-around, named groups, back references and the other
    escapes are [Beyond]. *)

Module RegExp.
Local Open Scope nat_scope.

Inductive cclass : Type :=
| CPlain | CBackslash | CDot | CCaret | CDollar | CBar | CStar | CPlus
| CQuestion | COpen | CClose | CLBracket | CRBracket | CLBrace | CRBrace.

Definition classify (c : ascii) : cclass :=
  match nat_of_ascii c with
  | 92 => CBackslash | 46 => CDot | 94 => CCaret | 36 => CDollar
  | 124 => CBar | 42 => CStar | 43 => CPlus | 63 => CQuestion
  | 40 => COpen | 41 => CClose | 91 => CLBracket | 93 => CRBracket
  | 123 => CLBrace | 125 => CRBrace
  | _ => CPlain
  end.

(** SyntaxCharacter :: one of ^ $ \ . * + ? ( ) [ ] { } | *)
Definition is_syntax_char (c : ascii) : bool :=
  match classify c with CPlain => false | _ => true end.

Inductive token : Type :=
| TChar (c : ascii)
| TDot | TCaret | TDollar | TBar
| TOpen (capturing : bool)
| TClose
| TQuant (lo : nat) (hi : option nat) (greedy : bool).

Definition digit_val (c : ascii) : option nat :=
  let n := nat_of_ascii c in
  if (48 <=? n) && (n <=? 57) then Some (n - 48) else None.

Fixpoint read_digits (acc : nat) (s : list ascii) : nat * list ascii :=
  match s with
  | c :: tl =>
      match digit_val c with
      | Some d => read_digits (10 * acc + d) tl
      | None => (acc, s)
      end
  | [] => (acc, [])
  end.

Definition read_number (s : list ascii) : option (nat * list ascii) :=
  match s with
  | c :: _ => match digit_val c with Some _ => Some (read_digits 0 s) | None => None end
  | [] => None
  end.

(** The text after an opening brace, when it completes a quantifier:
    [n}], [n,}] or [n,m}]. *)
Definition read_braces (s : list ascii) : option (nat * option nat * list ascii) :=
  match read_number s with
  | None => None
  | Some (lo, s1) =>
      match s1 with
      | c1 :: s2 =>
          if Ascii.eqb c1 "}" then Some (lo, Some lo, s2)
          else if Ascii.eqb c1 "," then
            match s2 with
            | c2 :: s3 =>
                if Ascii.eqb c2 "}" then Some (lo, None, s3)
                else match read_number s2 with
                     | Some (hi, c3 :: s4) =>
                         if Ascii.eqb c3 "}" then Some (lo, Some hi, s4) else None
                     | _ => None
                     end
            | [] => None
            end
          else None
      | [] => None
      end
  end.

Definition emit (t : token) (r : option (list token)) : option (list token) :=
  option_map (cons t) r.

(** A quantifier and its optional lazy mark. *)
Definition quantifier (rec : list ascii -> option (list token))
           (lo : nat) (hi : option nat) (rest : list ascii) : option (list token) :=
  match rest with
  | q :: rest' =>
      if Ascii.eqb q "?" then emit (TQuant lo hi false) (rec rest')
      else emit (TQuant lo hi true) (rec rest)
  | [] => emit (TQuant lo hi true) (rec rest)
  end.

(** Lexical analysis of the pattern source; [None] when it meets a
    construct outside the modelled syntax. *)
Fixpoint tokenize (fuel : nat) (s : list ascii) : option (list token) :=
  match s with
  | [] => Some []
  | c :: tl =>
      match fuel with
      | O => None
      | S f =>
          match classify c with
          | CPlain | CRBracket | CRBrace => emit (TChar c) (tokenize f tl)
          | CBackslash =>
              match tl with
              | d :: tl' =>
                  if is_syntax_char d || Ascii.eqb d "/"
                  then emit (TChar d) (tokenize f tl') else None
              | [] => None
              end
          | CDot => emit TDot (tokenize f tl)
          | CCaret => emit TCaret (tokenize f tl)
          | CDollar => emit TDollar (tokenize f tl)
          | CBar => emit TBar (tokenize f tl)
          | CStar => quantifier (tokenize f) 0 None tl
          | CPlus => quantifier (tokenize f) 1 None tl
          | CQuestion => quantifier (tokenize f) 0 (Some 1) tl
          | COpen =>
              match tl with
              | q :: tl' =>
                  if Ascii.eqb q "?" then
                    match tl' with
                    | k :: tl'' =>
                        if Ascii.eqb k ":" then emit (TOpen false) (tokenize f tl'') else None
                    | [] => None
                    end
                  else emit (TOpen true) (tokenize f tl)
              | [] => emit (TOpen true) (tokenize f tl)
              end
          | CClose => emit TClose (tokenize f tl)
          | CLBracket => None
          | CLBrace =>
              match read_braces tl with
              | Some (lo, hi, rest) => quantifier (tokenize f) lo hi rest
              | None => emit (TChar c) (tokenize f tl)
              end
          end
      end
  end.

(** Abstract syntax. *)
Inductive regex : Type :=
| REmpty
| RChar (c : ascii)
| RDot
| RBol
| REol
| RSeq (r1 r2 : regex)
| RAlt (r1 r2 : regex)
| RGroup (i : nat) (r : regex)
| RRepeat (lo : nat) (hi : option nat) (greedy : bool) (r : regex).

Definition seq_of (l : list regex) : regex := fold_right RSeq REmpty l.

Fixpoint alt_of (l : list regex) : regex :=
  match l with
  | [] => REmpty
  | [r] => r
  | r :: l' => RAlt r (alt_of l')
  end.

(** Parser: one frame per open group, holding the alternatives already
    closed and the terms of the current one, both most recent first. *)
Record frame : Type := mkFrame {
  f_alts : list regex;
  f_terms : list regex;
  f_group : option nat
}.

Record pstate : Type := mkPState {
  p_top : frame;
  p_stack : list frame;
  p_ncaps : nat;
  p_quantifiable : bool
}.

Definition close_frame (f : frame) : regex :=
  let body := alt_of (rev (seq_of (rev (f_terms f)) :: f_alts f)) in
  match f_group f with
  | Some i => RGroup i body
  | None => body
  end.

Definition push_term (r : regex) (quantifiable : bool) (st : pstate) : pstate :=
  let f := p_top st in
  mkPState (mkFrame (f_alts f) (r :: f_terms f) (f_group f))
           (p_stack st) (p_ncaps st) quantifiable.

Definition hi_ok (lo : nat) (hi : option nat) : bool :=
  match hi with Some h => lo <=? h | None => true end.

(** [None] is a SyntaxError. *)
Definition pstep (st : pstate) (t : token) : option pstate :=
  let f := p_top st in
  match t with
  | TChar c => Some (push_term (RChar c) true st)
  | TDot => Some (push_term RDot true st)
  | TCaret => Some (push_term RBol false st)
  | TDollar => Some (push_term REol false st)
  | TBar =>
      Some (mkPState (mkFrame (seq_of (rev (f_terms f)) :: f_alts f) [] (f_group f))
                     (p_stack st) (p_ncaps st) false)
  | TOpen capturing =>
      let n := if capturing then S (p_ncaps st) else p_ncaps st in
      Some (mkPState (mkFrame [] [] (if capturing then Some n else None))
                     (f :: p_stack st) n false)
  | TClose =>
      match p_stack st with
      | [] => None
      | parent :: rest =>
          Some (mkPState (mkFrame (f_alts parent) (close_frame f :: f_terms parent)
                                  (f_group parent))
                         rest (p_ncaps st) true)
      end
  | TQuant lo hi greedy =>
      if p_quantifiable st && hi_ok lo hi then
        match f_terms f with
        | r :: terms =>
            Some (mkPState (mkFrame (f_alts f) (RRepeat lo hi greedy r :: terms) (f_group f))
                           (p_stack st) (p_ncaps st) false)
        | [] => None
        end
      else None
  end.

Fixpoint psteps (st : pstate) (ts : list token) : option pstate :=
  match ts with
  | [] => Some st
  | t :: ts' =>
      match pstep st t with
      | Some st' => psteps st' ts'
      | None => None
      end
  end.

Definition pinit : pstate := mkPState (mkFrame [] [] None) [] 0 false.

(** A compiled pattern: its syntax tree and number of capturing groups. *)
Record regexp : Type := mkRegExp { re_tree : regex; re_ncaps : nat }.

Definition parse (ts : list token) : option regexp :=
  match psteps pinit ts with
  | Some st =>
      match p_stack st with
      | [] => Some (mkRegExp (close_frame (p_top st)) (p_ncaps st))
      | _ :: _ => None
      end
  | None => None
  end.

(** [new RegExp(source, "g")] *)
Definition compile (source : list ascii) : outcome regexp :=
  match tokenize (List.length source) source with
  | None => Beyond
  | Some ts =>
      match parse ts with
      | Some re => Return re
      | None => Throw SyntaxError
      end
  end.

(** *** Matching (ECMA-262 22.2.2, backtracking with continuations) *)

Record mstate : Type := mkMState {
  m_pos : nat;
  m_rest : list ascii;
  m_caps : list (option (nat * nat))
}.

Definition cont : Type := mstate -> option mstate.

Fixpoint set_nth {A} (n : nat) (v : A) (l : list A) : list A :=
  match l, n with
  | [], _ => []
  | _ :: tl, O => v :: tl
  | x :: tl, S n' => x :: set_nth n' v tl
  end.

Definition set_cap (i : nat) (v : option (nat * nat)) (x : mstate) : mstate :=
  mkMState (m_pos x) (m_rest x) (set_nth (i - 1) v (m_caps x)).

Fixpoint groups_of (r : regex) : list nat :=
  match r with
  | RSeq a b | RAlt a b => groups_of a ++ groups_of b
  | RGroup i a => i :: groups_of a
  | RRepeat _ _ _ a => groups_of a
  | _ => []
  end.

Definition clear_caps (gs : list nat) (x : mstate) : mstate :=
  fold_left (fun y i => set_cap i None y) gs x.

Definition is_line_terminator (c : ascii) : bool :=
  Ascii.eqb c "010" || Ascii.eqb c "013".

Definition step_char (p : ascii -> bool) (k : cont) (x : mstate) : option mstate :=
  match m_rest x with
  | c :: tl => if p c then k (mkMState (S (m_pos x)) tl (m_caps x)) else None
  | [] => None
  end.

Definition or_else (a : option mstate) (b : unit -> option mstate) : option mstate :=
  match a with Some z => Some z | None => b tt end.

Fixpoint rmatch (r : regex) (k : cont) (x : mstate) {struct r} : option mstate :=
  match r with
  | REmpty => k x
  | RChar c => step_char (Ascii.eqb c) k x
  | RDot => step_char (fun c => negb (is_line_terminator c)) k x
  | RBol => if m_pos x =? 0 then k x else None
  | REol => match m_rest x with [] => k x | _ :: _ => None end
  | RSeq a b => rmatch a (rmatch b k) x
  | RAlt a b => or_else (rmatch a k x) (fun _ => rmatch b k x)
  | RGroup i a => rmatch a (fun y => k (set_cap i (Some (m_pos x, m_pos y)) y)) x
  | RRepeat lo hi greedy a =>
      (* RepeatMatcher; the fuel bounds the iterations, each of which
         either counts towards [lo] or consumes input. *)
      (fix rep (fuel lo : nat) (hi : option nat) (x : mstate) {struct fuel} : option mstate :=
         match fuel with
         | O => None
         | S fuel' =>
             match hi with
             | Some O => k x
             | _ =>
                 let d : cont := fun y =>
                   if (lo =? 0) && (m_pos y =? m_pos x) then None
                   else rep fuel' (Nat.pred lo) (option_map Nat.pred hi) y in
                 let xr := clear_caps (groups_of a) x in
                 if negb (lo =? 0) then rmatch a d xr
                 else if greedy then or_else (rmatch a d xr) (fun _ => k x)
                 else or_else (k x) (fun _ => rmatch a d xr)
             end
         end) (S (lo + List.length (m_rest x))) lo hi x
  end.

(** The matcher of a pattern tried at one index of the subject. *)
Definition exec_at (re : regexp) (pos : nat) (rest : list ascii) : option mstate :=
  rmatch (re_tree re) (fun y => Some y) (mkMState pos rest (repeat None (re_ncaps re))).

(** *** GetSubstitution (ECMA-262 22.1.3.19.1) without named groups *)

Definition dollar : ascii := "$".

Definition capture_text (caps : list (option (list ascii))) (i : nat) : list ascii :=
  match nth_error caps (i - 1) with
  | Some (Some s) => s
  | _ => []
  end.

Section Substitution.
Variables (matched before after : list ascii).
Variable caps : list (option (list ascii)).

Definition in_caps (i : nat) : bool := (1 <=? i) && (i <=? List.length caps).

Fixpoint get_substitution (tpl : list ascii) : list ascii :=
  match tpl with
  | [] => []
  | c :: tl =>
      if negb (Ascii.eqb c dollar) then c :: get_substitution tl
      else
        match tl with
        | [] => [c]
        | d :: tl' =>
            if Ascii.eqb d dollar then dollar :: get_substitution tl'
            else if Ascii.eqb d "`" then before ++ get_substitution tl'
            else if Ascii.eqb d "&" then matched ++ get_substitution tl'
            else if Ascii.eqb d "'" then after ++ get_substitution tl'
            else
              match digit_val d with
              | None => c :: get_substitution tl
              | Some d1 =>
                  let one_digit :=
                    if in_caps d1 then capture_text caps d1 ++ get_substitution tl'
                    else c :: d :: get_substitution tl' in
                  match tl' with
                  | e :: tl'' =>
                      match digit_val e with
                      | Some d2 =>
                          let index := 10 * d1 + d2 in
                          if List.length caps <? index then one_digit
                          else if in_caps index
                               then capture_text caps index ++ get_substitution tl''
                               else c :: d :: e :: get_substitution tl''
                      | None => one_digit
                      end
                  | [] => one_digit
                  end
              end
        end
  end.
End Substitution.

(** *** RegExp.prototype[Symbol.replace] for a global pattern *)

Definition slice (whole : list ascii) (range : option (nat * nat)) : option (list ascii) :=
  match range with
  | Some (a, b) => Some (firstn (b - a) (skipn a whole))
  | None => None
  end.

Definition substitution (whole : list ascii) (pos : nat) (rest : list ascii)
           (y : mstate) (tpl : list ascii) : list ascii :=
  get_substitution (firstn (m_pos y - pos) rest) (firstn pos whole) (m_rest y)
                   (map (slice whole) (m_caps y)) tpl.

(** The scan from index [pos], where [rest] is the subject from there
    on.  After an empty match the scan advances by one code unit. *)
Fixpoint replace_from (fuel : nat) (re : regexp) (tpl whole : list ascii)
         (pos : nat) (rest : list ascii) : list ascii :=
  match fuel with
  | O => rest
  | S f =>
      match exec_at re pos rest with
      | Some y =>
          let sub := substitution whole pos rest y tpl in
          if m_pos y =? pos then
            match rest with
            | [] => sub
            | c :: tl => sub ++ c :: replace_from f re tpl whole (S pos) tl
            end
          else sub ++ replace_from f re tpl whole (m_pos y) (m_rest y)
      | None =>
          match rest with
          | [] => []
          | c :: tl => c :: replace_from f re tpl whole (S pos) tl
          end
      end
  end.

Definition replace_all (re : regexp) (tpl subject : list ascii) : list ascii :=
  replace_from (S (List.length subject)) re tpl subject 0 subject.

End RegExp.

(** [subject.replace(new RegExp(source, "g"), template)] *)
Definition replace_regexp_g (subject source template : string) : outcome string :=
  obind (RegExp.compile (chars source))
        (fun re => Return (str (RegExp.replace_all re (chars template) (chars subject)))).

(* ================================================================== *)
(** ** Observable events and the world *)

(** A caller-supplied function, by identity.  Calling it is recorded;
    handlers are assumed to return normally. *)
Definition handler : Type := nat.

(** The rows a successful query resolves to. *)
Definition rows : Type := list (list string).

Inductive argument : Type :=
| AError (e : error)
| AResult (r : option rows)     (* [None] is [undefined] *)
| ANothing.

Record parameter : Type := mkParameter { name : string; value : string }.

Inductive console_line : Type :=
| LogQuery (q : string) (v : list string)   (* console.log(query, values) *)
| LogParameters (ps : list parameter)       (* console.log(values) *)
| LogCaught (e : error)                     (* console.log(err) *)
| LogAllDisabled                            (* console.log("| All connections are disabled |") *)
| ErrRequestExecution (e : error)           (* console.error("Request execution error", err.stack) *)
| ErrClientReceipt (e : error).             (* console.error("Client Receipt error", err.stack) *)

Inductive event : Type :=
| Console (l : console_line)
| PoolConnect (pool : nat)                  (* pool.connect called *)
| Lease (pool : nat)                        (* the pool hands out a client *)
| Release (pool : nat)                      (* release() / client.release() *)
| ClientQuery (pool : nat) (q : string) (v : list string)   (* a statement reaches the database *)
| PoolEnd (pool : nat)                      (* pool.end called *)
| Invoke (h : handler) (a : argument)       (* a caller-supplied function is called *)
| Uncaught (e : error).                     (* an exception escapes a callback run by the event loop *)

(** Constructor input. *)
Record pool_configuration : Type := mkPoolConfiguration {
  host : string;
  port : string;
  database : string;
  user : string;
  password : string;
  idleTimeoutMillis : N;
  connectionTimeoutMillis : N
}.

Record hash_configuration : Type := mkHashConfiguration {
  secret : option string;
  algorithm : option string
}.

Record input : Type := mkInput {
  configs : pool_configuration;
  logs : option bool;
  hash : option hash_configuration
}.

(** An instance: [this._configs] and [this._pool] (the pool by number). *)
Record DewartPG : Type := mkDewartPG {
  _configs : input;
  _pool : nat
}.

(** The trace of events and the static registry [DewartPG._connections]. *)
Record world : Type := mkWorld {
  trace : list event;
  _connections : list DewartPG;
  pools : nat
}.

Definition empty_world : world := mkWorld [] [] 0.

(** What the pool and the database answer to one call of the facade.
    A pool that is alive answers later, from the event loop: it fails to
    connect ([ConnectFails]) or hands out a client ([ConnectOk]).  A
    pool that has been ended answers at once, inside the call of
    [connect] ([PoolEnded]): the callback runs before [connect] returns,
    the promise is born rejected. *)
Inductive query_reply : Type :=
| QueryFails (code : nat)
| QueryOk (r : rows).

Inductive pool_reply : Type :=
| ConnectFails (code : nat)
| ConnectOk (q : query_reply)
| PoolEnded.

(** The error of a pool that has been ended. *)
Definition pool_ended : error := ConnectionError 0.

Record client : Type := mkClient { c_pool : nat; c_reply : query_reply }.

(** *** The monad of effectful code: state and exceptions *)

Definition M (A : Type) : Type := world -> outcome A * world.

Definition ret {A} (a : A) : M A := fun w => (Return a, w).

Definition bind {A B} (m : M A) (f : A -> M B) : M B :=
  fun w =>
    match m w with
    | (Return a, w') => f a w'
    | (Throw e, w') => (Throw e, w')
    | (Beyond, w') => (Beyond, w')
    end.

Definition throw {A} (e : error) : M A := fun w => (Throw e, w).

Definition lift {A} (o : outcome A) : M A := fun w => (o, w).

(** [try { m } catch (err) { h err }] *)
Definition try_catch {A} (m : M A) (h : error -> M A) : M A :=
  fun w =>
    match m w with
    | (Throw e, w') => h e w'
    | r => r
    end.

Definition emit (e : event) : M unit :=
  fun w => (Return tt, mkWorld (trace w ++ [e]) (_connections w) (pools w)).

(** A callback run later by the event loop: an exception it throws does
    not reach the code that registered it. *)
Definition later (m : M unit) : M unit :=
  try_catch m (fun e => emit (Uncaught e)).

Declare Scope js_scope.
Delimit Scope js_scope with js.
Notation "x <- m ;; k" := (bind m (fun x => k))
  (at level 61, m at next level, right associativity) : js_scope.
Notation "m ;; k" := (bind m (fun _ => k))
  (at level 61, right associativity) : js_scope.
Notation "x <~ m ;; k" := (obind m (fun x => k))
  (at level 61, m at next level, right associativity) : js_scope.
Local Open Scope js_scope.

Definition console (l : console_line) : M unit := emit (Console l).

Definition call (h : handler) (a : argument) : M unit := emit (Invoke h a).

(** *** The pg pool and client, callback and promise styles *)

(** The clients of a pool that are checked out after a trace, and
    whether [pool.end] was called on it. *)
Definition checked_out (pool : nat) (t : list event) : nat :=
  List.length (filter (fun e => match e with Lease p => Nat.eqb p pool | _ => false end) t)
  - List.length (filter (fun e => match e with Release p => Nat.eqb p pool | _ => false end) t).

Definition ended_before (pool : nat) (t : list event) : bool :=
  existsb (fun e => match e with PoolEnd p => Nat.eqb p pool | _ => false end) t.

Definition pool_connect_callback (pool : nat) (net : pool_reply)
           (k : option error -> option client -> M unit) : M unit :=
  emit (PoolConnect pool) ;;
  match net with
  | ConnectFails code => later (k (Some (ConnectionError code)) None)
  | ConnectOk q => emit (Lease pool) ;; later (k None (Some (mkClient pool q)))
  | PoolEnded => k (Some pool_ended) None
  end.

Definition pool_connect_promise (pool : nat) (net : pool_reply) : M client :=
  emit (PoolConnect pool) ;;
  match net with
  | ConnectFails code => throw (ConnectionError code)
  | ConnectOk q => emit (Lease pool) ;; ret (mkClient pool q)
  | PoolEnded => throw pool_ended
  end.

(** [client.query(query, values, cb)]; [client] is [undefined] when the
    connection failed. *)
Definition client_query_callback (c : option client) (q : string) (v : list string)
           (k : option error -> option rows -> M unit) : M unit :=
  match c with
  | None => throw TypeError
  | Some c =>
      emit (ClientQuery (c_pool c) q v) ;;
      match c_reply c with
      | QueryFails code => later (k (Some (QueryError code)) None)
      | QueryOk r => later (k None (Some r))
      end
  end.

Definition client_query_promise (c : client) (q : string) (v : list string) : M rows :=
  emit (ClientQuery (c_pool c) q v) ;;
  match c_reply c with
  | QueryFails code => throw (QueryError code)
  | QueryOk r => ret r
  end.

Definition release (c : option client) : M unit :=
  match c with
  | Some c => emit (Release (c_pool c))
  | None => throw TypeError
  end.

(* ================================================================== *)
(** ** The class [DewartPG] *)

(** What a blocking-style method resolves to. *)
Inductive jsvalue : Type :=
| Undefined
| False
| Result (r : rows).

(** A plain object with string values (the documented type of the
    fields of [values.hash] and [values.other]): its own enumerable
    properties in key-enumeration order, each key once. *)
Definition object : Type := list (string * string).

Definition Object_keys (o : object) : list string := map fst o.

(** [o[k]] for a key the object has. *)
Fixpoint get (o : object) (k : string) : string :=
  match o with
  | [] => EmptyString
  | (k', v) :: o' => if String.eqb k k' then v else get o' k
  end.

(** The argument [values] of [hashQuery]: [{hash: {...}, other: {...}}]. *)
Record template_parameters : Type := mkTemplateParameters {
  tp_hash : option object;
  tp_other : option object
}.

(** [for (let i = 0; i < l.length; i++) body] over a loop state. *)
Fixpoint for_each {A S} (l : list A) (body : S -> A -> outcome S) (s : S) : outcome S :=
  match l with
  | [] => Return s
  | a :: l' => s' <~ body s a ;; for_each l' body s'
  end.

(** Decimal text of a counter, as a template literal prints it. *)
Definition decimal (n : nat) : string := NilEmpty.string_of_uint (Nat.to_uint n).

(** [DewartPG.length]: the number of formal parameters of the constructor. *)
Definition DewartPG_length : nat := 1.

Section Methods.
Context {crypto : NodeCrypto}.

(** [constructor(input)] *)
Definition new_DewartPG (i : input) : M DewartPG :=
  fun w =>
    let this := mkDewartPG i (pools w) in
    (Return this, mkWorld (trace w) (_connections w ++ [this]) (S (pools w))).

(** [close(callback)].  [pool.end] calls back inside the call when no
    client of the pool is checked out, or when the pool was ended before
    (then with an error the arrow function ignores); otherwise it waits
    for the clients still out.  Calls of the facade are not interleaved
    here, so a client still out at this point is one that [querySync]
    kept, and the callback stays pending. *)
Definition close (this : DewartPG) (callback : option handler) : M unit :=
  fun w =>
    let calls_back := ended_before (_pool this) (trace w)
                      || Nat.eqb (checked_out (_pool this) (trace w)) 0 in
    (emit (PoolEnd (_pool this)) ;;
     match callback with
     | Some h => if calls_back then call h ANothing else ret tt
     | None => ret tt
     end) w.

(** [static disconnect()] *)
Definition disconnect : M unit :=
  (fix loop (fuel i : nat) : M unit :=
     match fuel with
     | O => ret tt
     | S fuel' =>
         if Nat.ltb i DewartPG_length then
           (fun w =>
              match nth_error (_connections w) i with
              | Some this => close this None w
              | None => throw TypeError w
              end) ;;
           loop fuel' (S i)
         else ret tt
     end) (S DewartPG_length) 0 ;;
  console LogAllDisabled.

Definition logs_enabled (this : DewartPG) : bool :=
  match logs (_configs this) with
  | Some b => b
  | None => false
  end.

(** [query(query, values, callback, error)] *)
Definition query (this : DewartPG) (query : string) (values : list string)
           (callback error : option handler) (net : pool_reply) : M unit :=
  (if logs_enabled this then console (LogQuery query values) else ret tt) ;;
  pool_connect_callback (_pool this) net (fun err client =>
    match err, error with
    | Some e, Some h => call h (AError e)
    | _, _ =>
        client_query_callback client query values (fun err result =>
          release client ;;
          match err, error with
          | Some e, Some h => call h (AError e)
          | _, _ =>
              match callback with
              | Some h => call h (AResult result)
              | None => ret tt
              end
          end)
    end).

(** [async querySync(query, values)]; the inner blocks give [Some v]
    when the method returns [v] from inside them. *)
Definition querySync (this : DewartPG) (query : string) (values : list string)
           (net : pool_reply) : M jsvalue :=
  (if logs_enabled this then console (LogQuery query values) else ret tt) ;;
  returned <-
    try_catch
      (client <- pool_connect_promise (_pool this) net ;;
       try_catch
         (result <- client_query_promise client query values ;;
          release (Some client) ;;
          ret (Some (Result result)))
         (fun err => console (ErrRequestExecution err) ;; ret None))
      (fun err => console (ErrClientReceipt err) ;; ret None) ;;
  match returned with
  | Some v => ret v
  | None => ret False
  end.

(** [_hash(value)] *)
Definition _hash (this : DewartPG) (value : string) : outcome string :=
  match hash (_configs this) with
  | None => Throw TypeError
  | Some h =>
      match secret h, algorithm h with
      | Some s, Some a =>
          match createHmac a s with
          | Hmac digest_hex => Return (digest_hex value)
          | InvalidDigest => Throw DigestError
          | NoReference => Beyond
          end
      | _, _ => Throw ConfigurationError
      end
  end.

(** [_prepareHashParams(values)] *)
Definition _prepareHashParams (this : DewartPG) (values : template_parameters)
  : outcome (list parameter) :=
  result <~
    match tp_hash values with
    | Some h =>
        for_each (Object_keys h)
                 (fun result key =>
                    digest <~ _hash this (get h key) ;;
                    Return (result ++ [mkParameter key digest]))
                 []
    | None => Return []
    end ;;
  match tp_other values with
  | Some o =>
      for_each (Object_keys o)
               (fun result key => Return (result ++ [mkParameter key (get o key)]))
               result
  | None => Return result
  end.

(** The guard that opens [hashQuery] and [hashQuerySync]:
    [this._configs.hash.secret === undefined]. *)
Definition require_secret (this : DewartPG) : outcome unit :=
  match hash (_configs this) with
  | None => Throw TypeError
  | Some h =>
      match secret h with
      | Some _ => Return tt
      | None => Throw ConfigurationError
      end
  end.

Definition name_marker (n : string) : string := "{%" ++ n ++ "%}".
Definition value_marker (n : string) : string := "{&" ++ n ++ "&}".
Definition placeholder (counter : nat) : string := "$" ++ decimal counter.

(** The substitution loop shared by [hashQuery] and [hashQuerySync];
    the loop state is [(query, counter, v)]. *)
Definition substitute_step (st : string * nat * list string) (p : parameter)
  : outcome (string * nat * list string) :=
  let '(query, counter, v) := st in
  q1 <~ replace_regexp_g query (name_marker (name p)) (name p) ;;
  q2 <~ replace_regexp_g q1 (value_marker (name p)) (placeholder (S counter)) ;;
  Return (q2, S counter, v ++ [value p]).

Definition substitute (query : string) (values : list parameter)
  : outcome (string * list string) :=
  st <~ for_each values substitute_step (query, 0, []) ;;
  Return (fst (fst st), snd st).

(** The template resolver: everything [hashQuery] does before it
    hands over to [query]. *)
Definition resolve (this : DewartPG) (query : string) (values : template_parameters)
  : outcome (string * list string) :=
  _ <~ require_secret this ;;
  params <~ _prepareHashParams this values ;;
  substitute query params.

(** [hashQuery(query, values, callback, error)] *)
Definition hashQuery (this : DewartPG) (q : string) (values : template_parameters)
           (callback error : option handler) (net : pool_reply) : M unit :=
  try_catch
    (lift (require_secret this) ;;
     params <- lift (_prepareHashParams this values) ;;
     qv <- lift (substitute q params) ;;
     query this (fst qv) (snd qv) callback error net)
    (fun err =>
       match error with
       | Some h => call h (AError err)
       | None => ret tt
       end).

(** [async hashQuerySync(query, values)] *)
Definition hashQuerySync (this : DewartPG) (q : string) (values : template_parameters)
           (net : pool_reply) : M jsvalue :=
  try_catch
    (lift (require_secret this) ;;
     params <- lift (_prepareHashParams this values) ;;
     console (LogParameters params) ;;
     qv <- lift (substitute q params) ;;
     querySync this (fst qv) (snd qv) net)
    (fun err => console (LogCaught err) ;; ret Undefined).

(** A call of the query executor together with what the pool answers. *)
Inductive executor_call : Type :=
| CallQuery (q : string) (v : list string) (callback error : option handler)
| CallQuerySync (q : string) (v : list string).

Definition perform (this : DewartPG) (c : executor_call * pool_reply) : M unit :=
  match c with
  | (CallQuery q v callback error, net) => query this q v callback error net
  | (CallQuerySync q v, net) => querySync this q v net ;; ret tt
  end.

Fixpoint perform_all (this : DewartPG) (cs : list (executor_call * pool_reply)) : M unit :=
  match cs with
  | [] => ret tt
  | c :: cs' => perform this c ;; perform_all this cs'
  end.
End Methods.

(** *** Observations on a trace *)

Definition is_lease (e : event) : bool :=
  match e with Lease _ => true | _ => false end.
Definition is_release (e : event) : bool :=
  match e with Release _ => true | _ => false end.
Definition is_console (e : event) : bool :=
  match e with Console _ => true | _ => false end.
Definition is_invoke (e : event) : bool :=
  match e with Invoke _ _ => true | _ => false end.

Definition leases (w : world) : nat := List.length (filter is_lease (trace w)).
Definition releases (w : world) : nat := List.length (filter is_release (trace w)).

(** The events a computation adds when run from the empty world. *)
Definition events {A} (m : M A) : list event := trace (snd (m empty_world)).

(* ================================================================== *)
(** ** Reference notions the properties are stated with *)

(** Literal replacement of every occurrence of a text, left to right
    ([String.prototype.replaceAll] with a string pattern and a
    replacement free of [$] patterns). *)
Fixpoint strip_prefix (p s : list ascii) : option (list ascii) :=
  match p, s with
  | [], _ => Some s
  | _ :: _, [] => None
  | c :: p', d :: s' => if Ascii.eqb c d then strip_prefix p' s' else None
  end.

Fixpoint literal_replace_from (fuel : nat) (pat repl rest : list ascii) : list ascii :=
  match fuel with
  | O => rest
  | S f =>
      match strip_prefix pat rest with
      | Some rest' => repl ++ literal_replace_from f pat repl rest'
      | None =>
          match rest with
          | [] => []
          | c :: tl => c :: literal_replace_from f pat repl tl
          end
      end
  end.

Definition replaceAll (subject pat repl : string) : string :=
  str (literal_replace_from (S (List.length (chars subject))) (chars pat) (chars repl)
                            (chars subject)).

(** A field name free of regular-expression syntax characters. *)
Definition plain_name (n : string) : bool :=
  forallb (fun c => negb (RegExp.is_syntax_char c)) (chars n).

(** What the substitution loop computes when both markers of every
    field are replaced literally, the i-th field's value marker by [$i]. *)
Fixpoint literal_resolution (q : string) (counter : nat) (ps : list parameter) : string :=
  match ps with
  | [] => q
  | p :: ps' =>
      literal_resolution
        (replaceAll (replaceAll q (name_marker (name p)) (name p))
                    (value_marker (name p)) (placeholder (S counter)))
        (S counter) ps'
  end.

(** The positional placeholders [$n] that occur in a statement. *)
Fixpoint placeholders_in (s : list ascii) : list nat :=
  match s with
  | [] => []
  | c :: tl =>
      if Ascii.eqb c "$" then
        match RegExp.read_number tl with
        | Some (n, _) => n :: placeholders_in tl
        | None => placeholders_in tl
        end
      else placeholders_in tl
  end.

Definition distinct_placeholders (q : string) : nat :=
  List.length (nodup Nat.eq_dec (placeholders_in (chars q))).

(** The hash fields a call asks for. *)
Definition hash_fields (values : template_parameters) : object :=
  match tp_hash values with
  | Some h => h
  | None => []
  end.

Definition other_fields (values : template_parameters) : object :=
  match tp_other values with
  | Some o => o
  | None => []
  end.

(** The error a pool reply carries, if any. *)
Definition failure (net : pool_reply) : option error :=
  match net with
  | ConnectFails code => Some (ConnectionError code)
  | ConnectOk (QueryFails code) => Some (QueryError code)
  | ConnectOk (QueryOk _) => None
  | PoolEnded => Some pool_ended
  end.

Definition error_eqb (a b : error) : bool :=
  match a, b with
  | ConfigurationError, ConfigurationError
  | TypeError, TypeError
  | SyntaxError, SyntaxError
  | DigestError, DigestError => true
  | ConnectionError x, ConnectionError y
  | QueryError x, QueryError y => Nat.eqb x y
  | _, _ => false
  end.

(** The console lines that report an error. *)
Definition reports (e : error) (ev : event) : bool :=
  match ev with
  | Console (LogCaught e') | Console (ErrRequestExecution e')
  | Console (ErrClientReceipt e') => error_eqb e e'
  | _ => false
  end.

Definition is_uncaught (ev : event) : bool :=
  match ev with Uncaught _ => true | _ => false end.

(** "Logged and silently dropped, with no other effect on the caller":
    the error is reported on the console, no caller-supplied function
    runs and nothing escapes. *)
Definition logged_and_dropped (e : error) (evs : list event) : bool :=
  existsb (reports e) evs && negb (existsb is_invoke evs) && negb (existsb is_uncaught evs).

Definition passes_error (ev : event) : bool :=
  match ev with Invoke _ (AError _) => true | _ => false end.

(** [new DewartPG(i)] for each input in turn, and the registry this
    leaves when the first pool gets number [n]. *)
Fixpoint construct_all (inputs : list input) : M unit :=
  match inputs with
  | [] => ret tt
  | i :: inputs' => new_DewartPG i ;; construct_all inputs'
  end.

Fixpoint registry_of (n : nat) (inputs : list input) : list DewartPG :=
  match inputs with
  | [] => []
  | i :: inputs' => mkDewartPG i n :: registry_of (S n) inputs'
  end.

(** How [_hash] ends for every value: with the digest function, or with
    the exception the configuration causes. *)
Definition hash_status {crypto : NodeCrypto} (this : DewartPG) : outcome (string -> string) :=
  match hash (_configs this) with
  | None => Throw TypeError
  | Some h =>
      match secret h, algorithm h with
      | Some s, Some a =>
          match createHmac a s with
          | Hmac digest_hex => Return digest_hex
          | InvalidDigest => Throw DigestError
          | NoReference => Beyond
          end
      | _, _ => Throw ConfigurationError
      end
  end.

(** The parameters of the other group, as pushed. *)
Definition other_parameters (values : template_parameters) : list parameter :=
  map (fun k => mkParameter k (get (other_fields values) k)) (Object_keys (other_fields values)).

Definition hash_parameters (digest_hex : string -> string) (values : template_parameters)
  : list parameter :=
  map (fun k => mkParameter k (digest_hex (get (hash_fields values) k)))
      (Object_keys (hash_fields values)).

(** The catch block of [hashQuery]. *)
Definition caught (handler_argument : option handler) (err : error) : M unit :=
  match handler_argument with
  | Some h => call h (AError err)
  | None => ret tt
  end.

(** The events a failed resolution leaves in [hashQuery]. *)
Definition handed_to (handler_argument : option handler) (e : error) : list event :=
  match handler_argument with
  | Some h => [Invoke h (AError e)]
  | None => []
  end.

(** Where an error of a callback-style call goes: to the error handler
    and to no other caller-supplied function when there is a handler;
    to no handler and to no console line when there is none. *)
Definition routed (handler_argument : option handler) (e : error) (evs : list event) : Prop :=
  match handler_argument with
  | Some h => filter is_invoke evs = [Invoke h (AError e)]
  | None => existsb passes_error evs = false /\ existsb (reports e) evs = false
  end.

(** The calls that keep their client: blocking, leased, statement rejected. *)
Definition leaks (c : executor_call * pool_reply) : bool :=
  match c with
  | (CallQuerySync _ _, ConnectOk (QueryFails _)) => true
  | _ => false
  end.

(** Notions about patterns: the characters the lexer turns into
    themselves wherever they stand, the pattern of a literal text, the
    source of a marker, decimal digits, and the replacement templates
    whose expansion does not depend on the match. *)
Module RegExpNotions.
Import RegExp.
Local Open Scope nat_scope.

Definition literal_char (c : ascii) : bool :=
  match classify c with
  | CPlain | CRBracket | CRBrace => true
  | _ => false
  end.

(** The pattern that matches exactly the text [cs]. *)
Definition literal (cs : list ascii) : regexp := mkRegExp (seq_of (map RChar cs)) 0.

(** The source of a marker: an opening brace and a delimiter that is
    no digit, literal characters, the delimiter and a closing brace. *)
Definition marker_chars (delim : ascii) (body : list ascii) : list ascii :=
  "{"%char :: delim :: body ++ [delim; "}"%char].

Definition is_digit (c : ascii) : bool :=
  match digit_val c with Some _ => true | None => false end.

(** A template that stands for itself when there is no capturing group. *)
Definition inert (tpl : list ascii) : Prop :=
  forall matched before after, get_substitution matched before after [] tpl = tpl.

End RegExpNotions.

(** Sample objects for concrete runs. *)
Definition sample_pool : pool_configuration :=
  mkPoolConfiguration "localhost" "5432" "app" "app" "pw" 10000%N 2000%N.

Definition configured (s a : option string) : DewartPG :=
  mkDewartPG (mkInput sample_pool None (Some (mkHashConfiguration s a))) 0.

(* ================================================================== *)
(** ** Further observations on the current revision *)

Definition is_statement (e : event) : bool :=
  match e with ClientQuery _ _ _ => true | _ => false end.

Definition is_pool_end (e : event) : bool :=
  match e with PoolEnd _ => true | _ => false end.

(** The console line of the [logs] switch. *)
Definition logs_line (this : DewartPG) (q : string) (v : list string) : list event :=
  if logs_enabled this then [Console (LogQuery q v)] else [].

(** A statement with no opening brace holds no marker. *)
Definition brace_free (q : string) : bool :=
  forallb (fun c => negb (Ascii.eqb c "{")) (chars q).

(** A value that, used as a replacement template, has no [$] pattern. *)
Definition dollar_free (s : string) : bool :=
  forallb (fun c => negb (Ascii.eqb c RegExp.dollar)) (chars s).

(** What the inlining loop computes when both markers of every field
    are replaced literally, the value marker by the value itself. *)
Fixpoint inline_resolution (q : string) (ps : list parameter) : string :=
  match ps with
  | [] => q
  | p :: ps' =>
      inline_resolution
        (replaceAll (replaceAll q (name_marker (name p)) (name p))
                    (value_marker (name p)) (value p))
        ps'
  end.

(* ================================================================== *)
(** ** The two earlier revisions of the class

    [src/index.js] also holds two earlier revisions of [DewartPG],
    without the static registry.  The second (lines 201-386) takes
    [(params, query)], tests [typeof err] where the current one tests
    [typeof error], and calls [this.syncQuery], a method it does not
    have.  The third and oldest (lines 387-554) inlines the resolved
    values into the statement and calls its handlers unconditionally.
    [_hash] and the guard on the secret are the same in all three.

    Their events belong to one facade, so pools carry no number; a
    statement may be sent without values. *)

(** The body of [_prepareHashParams] in the current revision, under a
    name the earlier revisions can refer to. *)
Definition current_prepareHashParams {crypto : NodeCrypto} :
  DewartPG -> template_parameters -> outcome (list parameter) :=
  _prepareHashParams.

Module Legacy.

Inductive console_line : Type :=
| LogStatement (q : string)                 (* console.log(query) *)
| LogTemplate (p : template_parameters)     (* console.log(params) *)
| LogCaught (e : error)                     (* console.log(err) *)
| LogClosed                                 (* console.log of the "connection closed" text *)
| ErrRequestExecution (e : error)           (* console.error(<request execution>, err.stack) *)
| ErrClientReceipt (e : error).             (* console.error(<client receipt>, err.stack) *)

Inductive event : Type :=
| Console (l : console_line)
| PoolConnect
| Lease
| Release
| ClientQuery (q : string) (v : option (list string))   (* [None]: no values argument *)
| PoolEnd
| Invoke (h : handler) (a : argument)
| Uncaught (e : error).

Definition L (A : Type) : Type := list event -> outcome A * list event.

Definition ret {A} (a : A) : L A := fun t => (Return a, t).

Definition bind {A B} (m : L A) (f : A -> L B) : L B :=
  fun t =>
    match m t with
    | (Return a, t') => f a t'
    | (Throw e, t') => (Throw e, t')
    | (Beyond, t') => (Beyond, t')
    end.

Definition throw {A} (e : error) : L A := fun t => (Throw e, t).

Definition lift {A} (o : outcome A) : L A := fun t => (o, t).

Definition try_catch {A} (m : L A) (h : error -> L A) : L A :=
  fun t =>
    match m t with
    | (Throw e, t') => h e t'
    | r => r
    end.

Definition emit (e : event) : L unit := fun t => (Return tt, t ++ [e]).

Definition later (m : L unit) : L unit := try_catch m (fun e => emit (Uncaught e)).

Declare Scope legacy_scope.
Delimit Scope legacy_scope with legacy.
Notation "x <- m ;; k" := (bind m (fun x => k))
  (at level 61, m at next level, right associativity) : legacy_scope.
Notation "m ;; k" := (bind m (fun _ => k))
  (at level 61, right associativity) : legacy_scope.
Local Open Scope legacy_scope.

Definition console (l : console_line) : L unit := emit (Console l).

(** [f(a)] for a value [f] that may not be a function. *)
Definition apply (f : option handler) (a : argument) : L unit :=
  match f with
  | Some h => emit (Invoke h a)
  | None => throw TypeError
  end.

(** [typeof err === "function"]: what the pool, the client and [throw]
    deliver is an object, never a function. *)
Definition typeof_function (err : error) : bool := false.

Definition pool_connect_callback (net : pool_reply)
           (k : option error -> option query_reply -> L unit) : L unit :=
  emit PoolConnect ;;
  match net with
  | ConnectFails code => later (k (Some (ConnectionError code)) None)
  | ConnectOk q => emit Lease ;; later (k None (Some q))
  | PoolEnded => k (Some pool_ended) None
  end.

Definition pool_connect_promise (net : pool_reply) : L query_reply :=
  emit PoolConnect ;;
  match net with
  | ConnectFails code => throw (ConnectionError code)
  | ConnectOk q => emit Lease ;; ret q
  | PoolEnded => throw pool_ended
  end.

Definition client_query_callback (c : option query_reply) (q : string)
           (v : option (list string)) (k : option error -> option rows -> L unit) : L unit :=
  match c with
  | None => throw TypeError
  | Some reply =>
      emit (ClientQuery q v) ;;
      match reply with
      | QueryFails code => later (k (Some (QueryError code)) None)
      | QueryOk r => later (k None (Some r))
      end
  end.

Definition client_query_promise (reply : query_reply) (q : string)
           (v : option (list string)) : L rows :=
  emit (ClientQuery q v) ;;
  match reply with
  | QueryFails code => throw (QueryError code)
  | QueryOk r => ret r
  end.

(** The blocking executor, the same in both revisions up to its name
    and the values argument. *)
Definition blocking_query (q : string) (v : option (list string)) (net : pool_reply)
  : L jsvalue :=
  returned <-
    try_catch
      (client <- pool_connect_promise net ;;
       try_catch
         (result <- client_query_promise client q v ;;
          emit Release ;;
          ret (Some (Result result)))
         (fun err => console (ErrRequestExecution err) ;; ret None))
      (fun err => console (ErrClientReceipt err) ;; ret None) ;;
  match returned with
  | Some v => ret v
  | None => ret False
  end.

(** *** Second revision (lines 201-386) *)
Module Revision2.
Section Methods.
Context {crypto : NodeCrypto}.

(** [query(query, values, callback, error)] *)
Definition query (q : string) (values : list string) (callback error : option handler)
           (net : pool_reply) : L unit :=
  pool_connect_callback net (fun err client =>
    match err with
    | Some e => apply error (AError e)
    | None =>
        client_query_callback client q (Some values) (fun err result =>
          emit Release ;;
          match err with
          | Some e =>
              if typeof_function e then apply error (AError e)
              else match callback with
                   | Some h => emit (Invoke h (AResult result))
                   | None => ret tt
                   end
          | None =>
              match callback with
              | Some h => emit (Invoke h (AResult result))
              | None => ret tt
              end
          end)
    end).

(** [async querySync(query, values)] *)
Definition querySync (q : string) (values : list string) (net : pool_reply) : L jsvalue :=
  blocking_query q (Some values) net.

(** [_prepareHashParams(params)]: the current body after a
    [console.log(params)]. *)
Definition _prepareHashParams (this : DewartPG) (params : template_parameters)
  : L (list parameter) :=
  console (LogTemplate params) ;;
  lift (current_prepareHashParams this params).

(** [hashQuery(params, query, callback, error)] *)
Definition hashQuery (this : DewartPG) (params : template_parameters) (q : string)
           (callback error : option handler) (net : pool_reply) : L unit :=
  try_catch
    (lift (require_secret this) ;;
     resolved <- _prepareHashParams this params ;;
     qv <- lift (substitute q resolved) ;;
     query (fst qv) (snd qv) callback error net)
    (fun err => if typeof_function err then apply error (AError err) else ret tt).

(** [async hashQuerySync(params, query)]; [this.syncQuery] is
    [undefined] in this revision, and calling it throws. *)
Definition hashQuerySync (this : DewartPG) (params : template_parameters) (q : string)
           (net : pool_reply) : L jsvalue :=
  try_catch
    (lift (require_secret this) ;;
     resolved <- _prepareHashParams this params ;;
     qv <- lift (substitute q resolved) ;;
     throw TypeError)
    (fun err => console (LogCaught err) ;; ret Undefined).
End Methods.
End Revision2.

(** *** Third revision (lines 387-554) *)
Module Revision3.
Section Methods.
Context {crypto : NodeCrypto}.

(** [close()] *)
Definition close : L unit :=
  emit PoolEnd ;; later (console LogClosed).

(** [query(query, callback, error)] *)
Definition query (q : string) (callback error : option handler) (net : pool_reply) : L unit :=
  console (LogStatement q) ;;
  pool_connect_callback net (fun err client =>
    match err with
    | Some e => apply error (AError e)
    | None =>
        client_query_callback client q None (fun err result =>
          emit Release ;;
          match err with
          | Some e => apply error (AError e)
          | None => apply callback (AResult result)
          end)
    end).

(** [async syncQuery(query)] *)
Definition syncQuery (q : string) (net : pool_reply) : L jsvalue :=
  blocking_query q None net.

(** [_prepareHashParams(params)]: [Object.keys] of each group, with no
    test for a missing one. *)
Definition _prepareHashParams (this : DewartPG) (params : template_parameters)
  : outcome (list parameter) :=
  match tp_hash params with
  | None => Throw TypeError
  | Some h =>
      result <~
        for_each (Object_keys h)
                 (fun result key =>
                    digest <~ _hash this (get h key) ;;
                    Return (result ++ [mkParameter key digest]))
                 [] ;;
      match tp_other params with
      | None => Throw TypeError
      | Some o =>
          for_each (Object_keys o)
                   (fun result key => Return (result ++ [mkParameter key (get o key)]))
                   result
      end
  end.

(** The loop of [hashQuery] and [hashQuerySync]: the value goes into
    the statement. *)
Definition inline_step (q : string) (p : parameter) : outcome string :=
  q1 <~ replace_regexp_g q (name_marker (name p)) (name p) ;;
  replace_regexp_g q1 (value_marker (name p)) (value p).

Definition inline (q : string) (params : list parameter) : outcome string :=
  for_each params inline_step q.

(** Everything before the statement is sent. *)
Definition resolve (this : DewartPG) (params : template_parameters) (q : string)
  : outcome string :=
  _ <~ require_secret this ;;
  resolved <~ _prepareHashParams this params ;;
  inline q resolved.

(** [hashQuery(params, query, callback, error)] *)
Definition hashQuery (this : DewartPG) (params : template_parameters) (q : string)
           (callback error : option handler) (net : pool_reply) : L unit :=
  try_catch
    (lift (require_secret this) ;;
     resolved <- lift (_prepareHashParams this params) ;;
     q' <- lift (inline q resolved) ;;
     query q' callback error net)
    (fun err => apply error (AError err)).

(** [async hashQuerySync(params, query)] *)
Definition hashQuerySync (this : DewartPG) (params : template_parameters) (q : string)
           (net : pool_reply) : L jsvalue :=
  try_catch
    (lift (require_secret this) ;;
     resolved <- lift (_prepareHashParams this params) ;;
     q' <- lift (inline q resolved) ;;
     syncQuery q' net)
    (fun err => console (LogCaught err) ;; ret Undefined).
End Methods.
End Revision3.

Definition is_invoke (e : event) : bool :=
  match e with Invoke _ _ => true | _ => false end.

Definition is_console (e : event) : bool :=
  match e with Console _ => true | _ => false end.

Definition is_lease (e : event) : bool :=
  match e with Lease => true | _ => false end.

Definition is_release (e : event) : bool :=
  match e with Release => true | _ => false end.

(** What a blocking call that started from the trace [t] should show:
    the rows or [false], one lease when the pool connects, one release
    only when the statement succeeds. *)
Definition releases_on_success_only (net : pool_reply) (t : list event)
           (r : outcome jsvalue * list event) : Prop :=
  fst r = Return (match net with
                  | ConnectOk (QueryOk found) => Result found
                  | _ => False
                  end)
  /\ List.length (filter is_lease (snd r))
     = List.length (filter is_lease t) + (match net with ConnectOk _ => 1 | _ => 0 end)
  /\ List.length (filter is_release (snd r))
     = List.length (filter is_release t)
       + (match net with ConnectOk (QueryOk _) => 1 | _ => 0 end).

(** The events that touch the pool or the database. *)
Definition touches_pool (e : event) : bool :=
  match e with
  | PoolConnect | Lease | Release | ClientQuery _ _ | PoolEnd => true
  | _ => false
  end.

End Legacy.

(* ================================================================== *)
(** ** Sanity of the host models *)

(** FIPS 180-4 and RFC 4231 test vectors. *)
Example sha256_abc :
  SHA256.sha256_hex "abc"
  = "ba7816bf8f01cfea414140de5dae2223b00361a396177a9cb410ff61f20015ad".
Proof. vm_compute. reflexivity. Qed.

Example sha256_empty :
  SHA256.sha256_hex EmptyString
  = "e3b0c44298fc1c149afbf4c8996fb92427ae41e4649b934ca495991b7852b855".
Proof. vm_compute. reflexivity. Qed.

Example sha256_two_blocks :
  SHA256.sha256_hex "abcdbcdecdefdefgefghfghighijhijkijkljklmklmnlmnomnopnopq"
  = "248d6a61d20638b8e5c026930c3e6039a33ce45964ff2167f6ecedd419db06c1".
Proof. vm_compute. reflexivity. Qed.

Example hmac_rfc4231_case2 :
  SHA256.hmac_hex "Jefe" "what do ya want for nothing?"
  = "5bdcc146bf60754e6a042426089575c75a003f089d2739839dec58b964ec3843".
Proof. vm_compute. reflexivity. Qed.

(** Strings are hashed in their UTF-8 encoding (code unit 233 is two bytes). *)
Example hmac_utf8 :
  SHA256.hmac_hex "k" (String.append "caf" (String (ascii_of_nat 233) EmptyString))
  = "ab65517063e60db44e0ff6bb4aa95ec6f3143f30c467853214ebaf5b28bc343d"
  /\ SHA256.hmac_hex (String.append "cl" (String (ascii_of_nat 233) EmptyString)) "alice"
     = "3d63817fc8277a5552d134a1f31a403e4aac936862c5fda92d201948ff3c70f4".
Proof. vm_compute. split; reflexivity. Qed.

Example round_constants_ends :
  (hd 0 SHA256.K = 0x428a2f98 /\ last SHA256.K 0 = 0xc67178f2 /\ List.length SHA256.K = 64%nat)%N.
Proof. vm_compute. repeat split. Qed.

(** The regular-expression model on patterns with known results. *)
Example replace_greedy_star :
  replace_regexp_g "aaabab" "a*" "[$&]" = Return "[aaa][]b[a][]b[]".
Proof. vm_compute. reflexivity. Qed.

Example replace_lazy_capture :
  replace_regexp_g "aaabab" "(a|b)*?b" "[$1$`|$'$$]" = Return "[a|ab$][aaaab|$]".
Proof. vm_compute. reflexivity. Qed.

Example replace_anchors :
  replace_regexp_g "foo.bar" "^|\.|$" "#" = Return "#foo#bar#".
Proof. vm_compute. reflexivity. Qed.

Example replace_capture_reset :
  replace_regexp_g "aXbXc" "(?:(a)|b)+" "[$1]" = Return "[a]X[]Xc".
Proof. vm_compute. reflexivity. Qed.

Example braces_without_atom :
  replace_regexp_g "foo" "{1}" "#" = Throw SyntaxError.
Proof. vm_compute. reflexivity. Qed.

Example braces_incomplete_are_literal :
  replace_regexp_g "foo{,1}" "o{,1}" "#" = Return "fo#".
Proof. vm_compute. reflexivity. Qed.

Example class_is_beyond :
  replace_regexp_g "foo" "[a-z]" "#" = Beyond.
Proof. vm_compute. reflexivity. Qed.

Example replaceAll_markers :
  replaceAll "a {%x%} b {%x%}{%y%}" "{%x%}" "x" = "a x b x{%y%}".
Proof. vm_compute. reflexivity. Qed.

(* ================================================================== *)
(** ** Literal patterns: the regular expression of a marker *)

Module RegExpFacts.
Import RegExp RegExpNotions.
Local Open Scope nat_scope.

Lemma plain_is_literal c : is_syntax_char c = false -> literal_char c = true.
Proof. unfold is_syntax_char, literal_char. destruct (classify c); congruence. Qed.

Lemma tokenize_literal cs :
  forall fuel, forallb literal_char cs = true -> List.length cs <= fuel ->
               tokenize fuel cs = Some (map TChar cs).
Proof.
  induction cs as [|c cs IH]; intros fuel Hall Hlen.
  - destruct fuel; reflexivity.
  - simpl in Hall. apply andb_true_iff in Hall as [Hc Hcs].
    destruct fuel as [|fuel]; [simpl in Hlen; lia|].
    simpl in Hlen. simpl.
    unfold literal_char in Hc.
    destruct (classify c); try discriminate;
      rewrite IH by (auto; lia); reflexivity.
Qed.

Lemma psteps_chars cs :
  forall st,
    psteps st (map TChar cs)
    = Some (fold_left (fun s c => push_term (RChar c) true s) cs st).
Proof.
  induction cs as [|c cs IH]; intros st; simpl; [reflexivity|].
  apply IH.
Qed.

Lemma push_chars_shape cs :
  forall st,
    let st' := fold_left (fun s c => push_term (RChar c) true s) cs st in
    p_stack st' = p_stack st /\ p_ncaps st' = p_ncaps st
    /\ f_alts (p_top st') = f_alts (p_top st)
    /\ f_group (p_top st') = f_group (p_top st)
    /\ f_terms (p_top st') = rev (map RChar cs) ++ f_terms (p_top st).
Proof.
  induction cs as [|c cs IH]; intros st; simpl.
  - repeat split; reflexivity.
  - destruct (IH (push_term (RChar c) true st)) as (H1 & H2 & H3 & H4 & H5).
    simpl in *. repeat split; try assumption.
    rewrite H5. rewrite <- app_assoc. reflexivity.
Qed.

Lemma parse_chars cs : parse (map TChar cs) = Some (literal cs).
Proof.
  unfold parse. rewrite psteps_chars.
  destruct (push_chars_shape cs pinit) as (H1 & H2 & H3 & H4 & H5).
  simpl in *. rewrite H1. unfold close_frame. rewrite H3, H4, H5, H2.
  rewrite app_nil_r, rev_involutive. reflexivity.
Qed.

Lemma marker_nonempty delim body : marker_chars delim body <> [].
Proof. discriminate. Qed.

Lemma tokenize_open_brace fuel s :
  tokenize (S fuel) ("{"%char :: s)
  = match read_braces s with
    | Some (lo, hi, rest) => quantifier (tokenize fuel) lo hi rest
    | None => emit (TChar "{") (tokenize fuel s)
    end.
Proof. reflexivity. Qed.

Lemma compile_marker delim body :
  literal_char delim = true -> digit_val delim = None ->
  forallb literal_char body = true ->
  compile (marker_chars delim body) = Return (literal (marker_chars delim body)).
Proof.
  intros Hd Hnd Hbody. unfold compile.
  assert (Htok : tokenize (List.length (marker_chars delim body)) (marker_chars delim body)
                 = Some (map TChar (marker_chars delim body))).
  { unfold marker_chars.
    change (List.length ("{"%char :: delim :: body ++ [delim; "}"%char]))
      with (S (List.length (delim :: body ++ [delim; "}"%char]))).
    rewrite tokenize_open_brace.
    unfold read_braces, read_number. rewrite Hnd.
    rewrite tokenize_literal; [reflexivity| |reflexivity].
    cbn [forallb]. rewrite Hd. rewrite forallb_app, Hbody. cbn [forallb].
    rewrite Hd. reflexivity. }
  rewrite Htok, parse_chars. reflexivity.
Qed.

(** A literal pattern matches exactly its own text. *)
Lemma rmatch_literal cs :
  forall k x,
    rmatch (seq_of (map RChar cs)) k x
    = match strip_prefix cs (m_rest x) with
      | Some rest' => k (mkMState (List.length cs + m_pos x) rest' (m_caps x))
      | None => None
      end.
Proof.
  induction cs as [|c cs IH]; intros k x.
  - destruct x; reflexivity.
  - cbn [map seq_of fold_right rmatch]. unfold step_char.
    destruct (m_rest x) as [|d rest] eqn:Hrest; [reflexivity|].
    cbn [strip_prefix]. destruct (Ascii.eqb c d); [|reflexivity].
    change (fold_right RSeq REmpty (map RChar cs)) with (seq_of (map RChar cs)).
    rewrite IH. cbn [m_rest m_pos m_caps List.length].
    rewrite Nat.add_succ_r. reflexivity.
Qed.

(** *** Replacement templates that stand for themselves *)

Section Templates.
Variables (matched before after : list ascii).

Lemma substitution_without_dollar caps tpl :
  forallb (fun c => negb (Ascii.eqb c dollar)) tpl = true ->
  get_substitution matched before after caps tpl = tpl.
Proof.
  induction tpl as [|c tl IH]; intros H; [reflexivity|].
  cbn [forallb] in H. apply andb_true_iff in H as [Hc Htl].
  cbn [get_substitution]. rewrite Hc. rewrite IH by assumption. reflexivity.
Qed.

Lemma digit_is_ordinary c :
  is_digit c = true ->
  Ascii.eqb c dollar = false /\ Ascii.eqb c "`" = false
  /\ Ascii.eqb c "&" = false /\ Ascii.eqb c "'" = false.
Proof.
  destruct c as [[] [] [] [] [] [] [] []]; cbv; intros H; try discriminate H;
    repeat split.
Qed.

Lemma digits_without_dollar ds :
  forallb is_digit ds = true ->
  forallb (fun c => negb (Ascii.eqb c dollar)) ds = true.
Proof.
  induction ds as [|d ds IH]; intros H; [reflexivity|].
  cbn [forallb] in *. apply andb_true_iff in H as [Hd Hds].
  destruct (digit_is_ordinary d Hd) as (-> & _). rewrite IH by assumption. reflexivity.
Qed.

Lemma in_caps_nil i : in_caps (@nil (option (list ascii))) i = false.
Proof. unfold in_caps. destruct i; reflexivity. Qed.

(** With no capturing group, [$n] is not a reference. *)
Lemma substitution_placeholder ds :
  forallb is_digit ds = true ->
  get_substitution matched before after [] (dollar :: ds) = dollar :: ds.
Proof.
  intros Hds. destruct ds as [|d ds]; [reflexivity|].
  cbn [forallb] in Hds. apply andb_true_iff in Hds as [Hd Hds].
  destruct (digit_is_ordinary d Hd) as (E1 & E2 & E3 & E4).
  cbn [get_substitution]. change (Ascii.eqb dollar dollar) with true.
  cbn [negb]. rewrite E1, E2, E3, E4.
  unfold is_digit in Hd. destruct (digit_val d) as [d1|] eqn:Hd1; [|discriminate].
  rewrite in_caps_nil.
  pose proof (digits_without_dollar ds Hds) as Hinert.
  destruct ds as [|e ds'].
  - reflexivity.
  - cbn [forallb] in Hds. apply andb_true_iff in Hds as [He Hds'].
    unfold is_digit in He. destruct (digit_val e) as [d2|] eqn:Hd2; [|discriminate].
    rewrite in_caps_nil.
    rewrite (substitution_without_dollar [] (e :: ds') Hinert).
    cbn [forallb] in Hinert. apply andb_true_iff in Hinert as [_ Hinert'].
    rewrite (substitution_without_dollar [] ds' Hinert').
    destruct (List.length (@nil (option (list ascii))) <? 10 * d1 + d2); reflexivity.
Qed.
End Templates.

Lemma replace_from_literal pat tpl whole :
  pat <> [] -> inert tpl ->
  forall fuel pos rest,
    replace_from fuel (literal pat) tpl whole pos rest
    = literal_replace_from fuel pat tpl rest.
Proof.
  intros Hpat Htpl. induction fuel as [|fuel IH]; intros pos rest; [reflexivity|].
  cbn [replace_from literal_replace_from].
  unfold exec_at, literal. cbn [re_tree re_ncaps repeat].
  rewrite rmatch_literal. cbn [m_rest m_pos m_caps].
  destruct (strip_prefix pat rest) as [rest'|] eqn:Hstrip.
  - cbn [m_pos m_rest].
    assert (Hlen : (List.length pat + pos =? pos) = false).
    { apply Nat.eqb_neq. destruct pat; [congruence|]. simpl. lia. }
    rewrite Hlen. unfold substitution. cbn [m_caps map m_pos m_rest].
    rewrite Htpl. fold (literal pat). rewrite IH. reflexivity.
  - destruct rest as [|c tl]; [reflexivity|].
    fold (literal pat). rewrite IH. reflexivity.
Qed.

Lemma replace_all_literal pat tpl subject :
  pat <> [] -> inert tpl ->
  replace_all (literal pat) tpl subject
  = literal_replace_from (S (List.length subject)) pat tpl subject.
Proof. intros. unfold replace_all. apply replace_from_literal; assumption. Qed.
End RegExpFacts.

(* ================================================================== *)
(** ** The substitution loop on plain field names *)

Lemma forallb_over_map {A B} (f : B -> bool) (g : A -> B) (l : list A) :
  forallb f (map g l) = forallb (fun a => f (g a)) l.
Proof. induction l as [|a l IH]; [reflexivity|]. cbn. rewrite IH. reflexivity. Qed.

Lemma chars_app (a b : string) : chars (a ++ b)%string = chars a ++ chars b.
Proof.
  induction a as [|c a IH]; [reflexivity|].
  simpl. unfold chars in *. simpl. rewrite IH. reflexivity.
Qed.

Lemma str_chars (s : string) : str (chars s) = s.
Proof. apply string_of_list_ascii_of_string. Qed.

Lemma chars_name_marker n :
  chars (name_marker n) = RegExpNotions.marker_chars "%" (chars n).
Proof.
  unfold name_marker, RegExpNotions.marker_chars.
  change ("{%" ++ n ++ "%}")%string with (String "{" (String "%" (n ++ "%}")))%string.
  change (chars (String "{" (String "%" (n ++ "%}"))))
    with ("{"%char :: "%"%char :: chars (n ++ "%}")).
  rewrite chars_app. reflexivity.
Qed.

Lemma chars_value_marker n :
  chars (value_marker n) = RegExpNotions.marker_chars "&" (chars n).
Proof.
  unfold value_marker, RegExpNotions.marker_chars.
  change ("{&" ++ n ++ "&}")%string with (String "{" (String "&" (n ++ "&}")))%string.
  change (chars (String "{" (String "&" (n ++ "&}"))))
    with ("{"%char :: "&"%char :: chars (n ++ "&}")).
  rewrite chars_app. reflexivity.
Qed.

Lemma plain_name_literal n :
  plain_name n = true -> forallb RegExpNotions.literal_char (chars n) = true.
Proof.
  unfold plain_name. induction (chars n) as [|c l IH]; intros H; [reflexivity|].
  cbn [forallb] in *. apply andb_true_iff in H as [Hc Hl].
  rewrite RegExpFacts.plain_is_literal, IH; auto.
  destruct (RegExp.is_syntax_char c); [discriminate|reflexivity].
Qed.

Lemma plain_name_inert n : plain_name n = true -> RegExpNotions.inert (chars n).
Proof.
  unfold plain_name. intros H matched before after.
  apply RegExpFacts.substitution_without_dollar.
  induction (chars n) as [|c l IH]; [reflexivity|].
  cbn [forallb] in *. apply andb_true_iff in H as [Hc Hl].
  rewrite IH by assumption. rewrite andb_true_r.
  destruct (Ascii.eqb c RegExp.dollar) eqn:E; [|reflexivity].
  apply Ascii.eqb_eq in E. subst c. discriminate Hc.
Qed.

Lemma decimal_digits n : forallb RegExpNotions.is_digit (chars (decimal n)) = true.
Proof.
  unfold decimal. induction (Nat.to_uint n) as [|u IH|u IH|u IH|u IH|u IH|u IH|u IH|u IH|u IH|u IH];
    [reflexivity|..]; simpl; exact IH.
Qed.

Lemma placeholder_inert counter : RegExpNotions.inert (chars (placeholder counter)).
Proof.
  intros matched before after. unfold placeholder.
  change (chars ("$" ++ decimal counter)) with (RegExp.dollar :: chars (decimal counter)).
  apply RegExpFacts.substitution_placeholder, decimal_digits.
Qed.

(** On a plain field name the regular expression of either marker
    behaves as the literal text of the marker. *)
Lemma replace_name_marker q n tpl :
  plain_name n = true -> RegExpNotions.inert (chars tpl) ->
  replace_regexp_g q (name_marker n) tpl = Return (replaceAll q (name_marker n) tpl).
Proof.
  intros Hn Htpl. unfold replace_regexp_g, replaceAll.
  rewrite chars_name_marker.
  rewrite RegExpFacts.compile_marker by (auto using plain_name_literal).
  cbn [obind]. rewrite RegExpFacts.replace_all_literal;
    auto using RegExpFacts.marker_nonempty.
Qed.

Lemma replace_value_marker q n tpl :
  plain_name n = true -> RegExpNotions.inert (chars tpl) ->
  replace_regexp_g q (value_marker n) tpl = Return (replaceAll q (value_marker n) tpl).
Proof.
  intros Hn Htpl. unfold replace_regexp_g, replaceAll.
  rewrite chars_value_marker.
  rewrite RegExpFacts.compile_marker by (auto using plain_name_literal).
  cbn [obind]. rewrite RegExpFacts.replace_all_literal;
    auto using RegExpFacts.marker_nonempty.
Qed.

Lemma substitute_step_plain q counter v p :
  plain_name (name p) = true ->
  substitute_step (q, counter, v) p
  = Return (replaceAll (replaceAll q (name_marker (name p)) (name p))
                       (value_marker (name p)) (placeholder (S counter)),
            S counter, v ++ [value p]).
Proof.
  intros Hp. unfold substitute_step.
  rewrite replace_name_marker by auto using plain_name_inert.
  cbn [obind].
  rewrite replace_value_marker by auto using placeholder_inert.
  reflexivity.
Qed.

Lemma substitute_loop_plain ps :
  forallb (fun p => plain_name (name p)) ps = true ->
  forall q counter v,
    for_each ps substitute_step (q, counter, v)
    = Return (literal_resolution q counter ps, counter + List.length ps, v ++ map value ps).
Proof.
  induction ps as [|p ps IH]; intros Hall q counter v.
  - cbn. rewrite Nat.add_0_r, app_nil_r. reflexivity.
  - cbn [forallb] in Hall. apply andb_true_iff in Hall as [Hp Hps].
    cbn [for_each]. rewrite substitute_step_plain by assumption.
    cbn [obind]. rewrite IH by assumption.
    cbn [literal_resolution List.length map].
    rewrite Nat.add_succ_r, <- app_assoc. reflexivity.
Qed.

Lemma substitute_plain q ps :
  forallb (fun p => plain_name (name p)) ps = true ->
  substitute q ps = Return (literal_resolution q 0 ps, map value ps).
Proof.
  intros Hall. unfold substitute. rewrite substitute_loop_plain by assumption.
  reflexivity.
Qed.

(** Whatever the names, the loop pushes one bind value per field. *)
Lemma substitute_loop_binds ps :
  forall q counter v q' counter' v',
    for_each ps substitute_step (q, counter, v) = Return (q', counter', v') ->
    v' = v ++ map value ps /\ counter' = counter + List.length ps.
Proof.
  induction ps as [|p ps IH]; intros q counter v q' counter' v' H.
  - cbn in H. injection H as <- <- <-. rewrite app_nil_r. auto.
  - cbn [for_each] in H. unfold substitute_step in H at 1.
    destruct (replace_regexp_g q (name_marker (name p)) (name p)) as [q1| |]; try discriminate.
    cbn [obind] in H.
    destruct (replace_regexp_g q1 (value_marker (name p)) (placeholder (S counter)))
      as [q2| |]; try discriminate.
    cbn [obind] in H. apply IH in H as [-> ->].
    cbn [map List.length]. rewrite <- app_assoc. split; [reflexivity | lia].
Qed.

(* ================================================================== *)
(** ** The query executor *)

Ltac run :=
  cbv [bind ret throw lift try_catch later emit console call release
       pool_connect_callback pool_connect_promise
       client_query_callback client_query_promise
       c_pool c_reply trace _connections pools fst snd].

Ltac count :=
  unfold leases, releases; cbn [trace];
  repeat rewrite ?filter_app, ?length_app; cbn; try lia.

(** [query] throws in one case only: the pool was ended and there is
    no error handler, so that [client.query] is reached, on a missing
    client, inside the call.  Whatever else goes wrong inside its
    callbacks stays in the event loop. *)
Lemma query_outcome this q v callback error net w :
  fst (query this q v callback error net w)
  = match net, error with
    | PoolEnded, None => Throw TypeError
    | _, _ => Return tt
    end.
Proof.
  unfold query. destruct (logs_enabled this), net as [code|[code|r]|], error, callback;
    reflexivity.
Qed.

(** The callback style releases what it leases, on every path. *)
Lemma query_balanced this q v callback error net w :
  let w' := snd (query this q v callback error net w) in
  leases w' - leases w = releases w' - releases w
  /\ leases w <= leases w' /\ releases w <= releases w'.
Proof.
  destruct w as [tr cs n]. unfold query.
  destruct (logs_enabled this), net as [code|[code|r]|], error, callback; run; count.
Qed.

(** The blocking style releases only when the statement succeeds. *)
Lemma querySync_balance this q v net w :
  let w' := snd (querySync this q v net w) in
  leases w' = leases w + (match net with ConnectOk _ => 1 | _ => 0 end)
  /\ releases w' = releases w + (match net with ConnectOk (QueryOk _) => 1 | _ => 0 end).
Proof.
  destruct w as [tr cs n]. unfold querySync.
  destruct (logs_enabled this), net as [code|[code|r]|]; run; count.
Qed.

Lemma querySync_returns this q v net w :
  exists r, fst (querySync this q v net w) = Return r.
Proof.
  destruct w as [tr cs n]. unfold querySync.
  destruct (logs_enabled this), net as [code|[code|r]|]; run; eexists; reflexivity.
Qed.

(** After any number of calls that all return, the leases that were
    never released are exactly the blocking calls whose statement failed. *)
Lemma perform_all_balance this cs :
  forall w,
    fst (perform_all this cs w) = Return tt ->
    let w' := snd (perform_all this cs w) in
    leases w' + releases w = releases w' + leases w + List.length (filter leaks cs)
    /\ leases w <= leases w' /\ releases w <= releases w'.
Proof.
  induction cs as [|c cs IH]; intros w Hret.
  - cbn. lia.
  - cbv zeta. cbn [perform_all] in *.
    assert (Hb : (perform this c ;; perform_all this cs) w
                 = match perform this c w with
                   | (Return _, w1) => perform_all this cs w1
                   | (Throw e, w1) => (Throw e, w1)
                   | (Beyond, w1) => (Beyond, w1)
                   end) by reflexivity.
    rewrite Hb in *. clear Hb.
    assert (Hstep : let w1 := snd (perform this c w) in
                    leases w1 + releases w
                    = releases w1 + leases w + (if leaks c then 1 else 0)
                    /\ leases w <= leases w1 /\ releases w <= releases w1).
    { destruct c as [[q v callback error|q v] net]; cbn [perform leaks]; cbv zeta.
      - pose proof (query_balanced this q v callback error net w) as H. cbv zeta in H. lia.
      - assert (Hw : snd ((querySync this q v net ;; ret tt) w)
                     = snd (querySync this q v net w)).
        { unfold bind. destruct (querySync this q v net w) as [[ r | |] w']; reflexivity. }
        rewrite Hw.
        pose proof (querySync_balance this q v net w) as H. cbv zeta in H.
        destruct net as [code|[code|r]|]; lia. }
    cbv zeta in Hstep.
    destruct (perform this c w) as [[[]| |] w1]; cbn [fst snd] in *; try discriminate.
    specialize (IH w1 Hret). cbv zeta in IH.
    cbn [filter]. destruct (leaks c); cbn [List.length]; lia.
Qed.

(** C1 (the code departs from the claim).  When the pool leases a
    client and the database rejects the statement, [querySync] logs the
    error and returns without calling [client.release()]: the call adds
    one lease and no release, so leases and releases are no longer equal
    afterwards. *)
Theorem querySync_leaks_on_query_failure :
  forall this q v code w,
    let w' := snd (querySync this q v (ConnectOk (QueryFails code)) w) in
    leases w' = S (leases w) /\ releases w' = releases w.
Proof.
  intros this q v code w w'.
  destruct (querySync_balance this q v (ConnectOk (QueryFails code)) w) as [Hl Hr].
  fold w' in Hl, Hr. split; lia.
Qed.

(** The failing run: one blocking call whose statement is rejected. *)
Example one_failing_querySync :
  let w := snd (perform_all (configured None None)
                            [(CallQuerySync "SELECT 1" [], ConnectOk (QueryFails 7))]
                            empty_world) in
  leases w = 1 /\ releases w = 0.
Proof. vm_compute. split; reflexivity. Qed.

(** C6.  Whatever the pool and the database answer, [querySync]
    returns and does not throw: the rows when the statement succeeds,
    [false] when the connection or the statement fails, and in that case
    the error has been reported on the console. *)
Theorem querySync_returns_result_or_false :
  forall this q v net w,
    fst (querySync this q v net w)
    = Return (match net with
              | ConnectOk (QueryOk r) => Result r
              | _ => False
              end)
    /\ match failure net with
       | Some e => existsb (reports e) (trace (snd (querySync this q v net w))) = true
       | None => True
       end.
Proof.
  intros this q v net [tr cs n]. unfold querySync.
  destruct (logs_enabled this), net as [code|[code|r]|]; run; cbn [failure];
    (split; [reflexivity|]); try exact I;
    rewrite existsb_app; cbn; rewrite ?Nat.eqb_refl; apply orb_true_r.
Qed.

(* ================================================================== *)
(** ** Life cycle: the registry and [disconnect] *)

Lemma construct_all_registry inputs :
  forall tr cs n,
    construct_all inputs (mkWorld tr cs n)
    = (Return tt, mkWorld tr (cs ++ registry_of n inputs) (n + List.length inputs)).
Proof.
  induction inputs as [|i inputs IH]; intros tr cs n.
  - cbn. rewrite app_nil_r, Nat.add_0_r. reflexivity.
  - cbn [construct_all]. unfold bind, new_DewartPG. cbn [trace _connections pools].
    rewrite IH. cbn [registry_of List.length].
    rewrite <- app_assoc, Nat.add_succ_r. reflexivity.
Qed.

Lemma registry_pools inputs :
  forall n f, In f (registry_of n inputs) -> n <= _pool f.
Proof.
  induction inputs as [|i inputs IH]; intros n f H; [contradiction|].
  cbn in H. destruct H as [<- | H]; [cbn; lia|].
  apply IH in H. lia.
Qed.

(** C9.  Built from the initial state by any sequence of
    constructions, the registry holds the facades in construction order,
    each with its own pool.  [disconnect] then throws a TypeError, with
    nothing closed and nothing logged, when no facade was constructed;
    otherwise it ends the pool of the first facade only, and the pool of
    no facade registered after it. *)
Theorem disconnect_reaches_first_facade_only :
  forall inputs,
    let w := snd (construct_all inputs empty_world) in
    _connections w = registry_of 0 inputs
    /\ List.length (_connections w) = List.length inputs
    /\ trace w = []
    /\ match inputs with
       | [] => disconnect w = (Throw TypeError, w)
       | _ :: _ =>
           fst (disconnect w) = Return tt
           /\ trace (snd (disconnect w)) = [PoolEnd 0; Console LogAllDisabled]
       end
    /\ (forall f, In f (tl (_connections w)) ->
                  ~ In (PoolEnd (_pool f)) (trace (snd (disconnect w)))).
Proof.
  intros inputs w. subst w. unfold empty_world. rewrite construct_all_registry.
  cbn [snd _connections trace app].
  assert (Hlen : forall n, List.length (registry_of n inputs) = List.length inputs).
  { induction inputs as [|i inputs IH]; intros n; cbn; [reflexivity | now rewrite IH]. }
  repeat split.
  - apply Hlen.
  - destruct inputs as [|i inputs]; [reflexivity|]. split; reflexivity.
  - intros f Hf Hin. destruct inputs as [|i inputs]; [contradiction|].
    cbn [registry_of tl] in Hf. apply registry_pools in Hf.
    cbn in Hin. destruct Hin as [Heq | [Heq | []]]; [|discriminate].
    injection Heq as Heq. lia.
Qed.

(* ================================================================== *)
(** ** The loops of [_prepareHashParams] *)

Section Parameters.
Context {crypto : NodeCrypto}.

Lemma get_own (o : object) :
  NoDup (Object_keys o) -> forall k v, In (k, v) o -> get o k = v.
Proof.
  induction o as [|[k' v'] o IH]; intros Hnd k v Hin; [contradiction|].
  cbn in Hnd. inversion Hnd as [|? ? Hnotin Hnd']; subst.
  cbn [get]. destruct Hin as [Heq | Hin].
  - injection Heq as -> ->. rewrite String.eqb_refl. reflexivity.
  - destruct (String.eqb k k') eqn:E.
    + apply String.eqb_eq in E. subst k'. exfalso. apply Hnotin.
      unfold Object_keys. change k with (fst (k, v)). apply in_map, Hin.
    + apply IH; assumption.
Qed.

Lemma map_own_values {B} (f : string -> string -> B) (o : object) :
  NoDup (Object_keys o) ->
  map (fun k => f k (get o k)) (Object_keys o) = map (fun kv => f (fst kv) (snd kv)) o.
Proof.
  intros Hnd. unfold Object_keys. rewrite map_map.
  apply map_ext_in. intros [k v] Hin. cbn [fst snd].
  rewrite (get_own _ Hnd _ _ Hin). reflexivity.
Qed.

(** The push loop over the keys of a group. *)
Lemma push_loop (f : string -> outcome string) (g : string -> string) keys :
  (forall k, In k keys -> f k = Return (g k)) ->
  forall acc,
    for_each keys (fun result key => value <~ f key ;; Return (result ++ [mkParameter key value]))
             acc
    = Return (acc ++ map (fun k => mkParameter k (g k)) keys).
Proof.
  induction keys as [|k keys IH]; intros Hf acc.
  - cbn. rewrite app_nil_r. reflexivity.
  - cbn [for_each]. rewrite (Hf k) by (left; reflexivity). cbn [obind].
    rewrite IH by (intros; apply Hf; right; assumption).
    cbn [map]. rewrite <- app_assoc. reflexivity.
Qed.

(** The "other" group never needs the hash configuration. *)
Lemma prepare_other_only this values :
  hash_fields values = [] ->
  _prepareHashParams this values
  = Return (map (fun k => mkParameter k (get (other_fields values) k))
                (Object_keys (other_fields values))).
Proof.
  intros Hh. unfold _prepareHashParams, hash_fields, other_fields in *.
  destruct (tp_hash values) as [h|]; [subst h|]; cbn [Object_keys map for_each obind];
    (destruct (tp_other values) as [o|]; [|reflexivity]);
    apply (push_loop (fun k => Return (get o k)) (fun k => get o k));
    reflexivity.
Qed.
End Parameters.

(* ================================================================== *)
(** ** The template resolver inside [hashQuery] and [hashQuerySync] *)

Section Resolver.
Context {crypto : NodeCrypto}.

Lemma hash_by_status this value :
  _hash this value = (digest_hex <~ hash_status this ;; Return (digest_hex value)).
Proof.
  unfold _hash, hash_status.
  destruct (hash (_configs this)) as [[[s|] [a|]]|]; cbn [secret algorithm];
    try reflexivity.
  destruct (createHmac a s); reflexivity.
Qed.

(** [_prepareHashParams] by cases: the hash configuration is looked at
    only when there is a hash field. *)
Lemma prepare_cases this values :
  _prepareHashParams this values
  = match hash_fields values with
    | [] => Return (other_parameters values)
    | _ :: _ =>
        digest_hex <~ hash_status this ;;
        Return (hash_parameters digest_hex values ++ other_parameters values)
    end.
Proof.
  destruct (hash_fields values) as [|[k v] h'] eqn:Hh.
  - apply prepare_other_only, Hh.
  - unfold _prepareHashParams, hash_parameters, other_parameters.
    unfold hash_fields in *. destruct (tp_hash values) as [h|]; [subst h|discriminate].
    destruct (hash_status this) as [d| e |] eqn:Hst.
    + rewrite (push_loop (fun key => _hash this (get ((k, v) :: h') key))
                         (fun key => d (get ((k, v) :: h') key))).
      2:{ intros key _. rewrite hash_by_status, Hst. reflexivity. }
      cbn [obind app]. unfold other_fields.
      destruct (tp_other values) as [o|]; [|cbn; rewrite app_nil_r; reflexivity].
      apply (push_loop (fun key => Return (get o key)) (fun key => get o key)). reflexivity.
    + cbn [Object_keys map for_each fst]. rewrite hash_by_status, Hst. reflexivity.
    + cbn [Object_keys map for_each fst]. rewrite hash_by_status, Hst. reflexivity.
Qed.

(** The only exception of the substitution loop is the SyntaxError of
    [new RegExp]. *)
Lemma replace_throws q source tpl e :
  replace_regexp_g q source tpl = Throw e -> e = SyntaxError.
Proof.
  unfold replace_regexp_g, RegExp.compile.
  destruct (RegExp.tokenize _ _) as [ts|]; [|discriminate].
  destruct (RegExp.parse ts); cbn; congruence.
Qed.

Lemma substitute_loop_throws ps :
  forall st e, for_each ps substitute_step st = Throw e -> e = SyntaxError.
Proof.
  induction ps as [|p ps IH]; intros [[q counter] v] e H; [discriminate|].
  cbn [for_each] in H. unfold substitute_step in H at 1.
  destruct (replace_regexp_g q (name_marker (name p)) (name p)) as [q1|e1|] eqn:E1;
    cbn [obind] in H; [| injection H as <-; eapply replace_throws, E1 | discriminate].
  destruct (replace_regexp_g q1 (value_marker (name p)) (placeholder (S counter)))
    as [q2|e2|] eqn:E2;
    cbn [obind] in H; [| injection H as <-; eapply replace_throws, E2 | discriminate].
  eapply IH, H.
Qed.

Lemma substitute_throws q ps e : substitute q ps = Throw e -> e = SyntaxError.
Proof.
  unfold substitute. intros H.
  destruct (for_each ps substitute_step (q, 0, [])) as [st|e'|] eqn:E; cbn in H;
    [discriminate| |discriminate].
  injection H as <-. eapply substitute_loop_throws, E.
Qed.

(** Inside the try block of [hashQuery], the one exception [query] can
    throw (ended pool, no error handler) is caught and, for want of a
    handler, dropped: [hashQuery] returns and leaves what [query] left. *)
Lemma caught_query this q v callback error net w :
  try_catch (query this q v callback error net) (caught error) w
  = (Return tt, snd (query this q v callback error net w)).
Proof.
  destruct w as [tr cs n]. unfold query, caught.
  destruct (logs_enabled this), net as [code|[code|r]|], error, callback; reflexivity.
Qed.

(** [hashQuery] is its resolver followed by [query] inside the try
    block, or by the error handler when the resolver throws. *)
Lemma hashQuery_by_resolve this q values callback error net w :
  hashQuery this q values callback error net w
  = match resolve this q values with
    | Return qv =>
        try_catch (query this (fst qv) (snd qv) callback error net) (caught error) w
    | Throw e =>
        (Return tt, mkWorld (trace w ++ handed_to error e) (_connections w) (pools w))
    | Beyond => (Beyond, w)
    end.
Proof.
  destruct w as [tr cs n].
  unfold hashQuery, resolve, try_catch, bind, lift, caught.
  destruct (require_secret this) as [[]|e|]; cbn [obind].
  2:{ destruct error; cbn; rewrite ?app_nil_r; reflexivity. }
  2:{ reflexivity. }
  destruct (_prepareHashParams this values) as [params|e|]; cbn [obind].
  2:{ destruct error; cbn; rewrite ?app_nil_r; reflexivity. }
  2:{ reflexivity. }
  destruct (substitute q params) as [qv|e|]; cbn [obind].
  2:{ destruct error; cbn; rewrite ?app_nil_r; reflexivity. }
  2:{ reflexivity. }
  reflexivity.
Qed.

(** [hashQuerySync] likewise, with its console lines. *)
Lemma hashQuerySync_resolved this q values net w qv :
  resolve this q values = Return qv ->
  exists params,
    _prepareHashParams this values = Return params
    /\ hashQuerySync this q values net w
       = querySync this (fst qv) (snd qv) net
                   (mkWorld (trace w ++ [Console (LogParameters params)])
                            (_connections w) (pools w)).
Proof.
  destruct w as [tr cs n].
  unfold hashQuerySync, resolve, try_catch, bind, lift, console, emit.
  destruct (require_secret this) as [[]|e|]; cbn [obind]; try discriminate.
  destruct (_prepareHashParams this values) as [params|e|]; cbn [obind]; try discriminate.
  intros Hs. exists params. split; [reflexivity|]. rewrite Hs. cbn [trace _connections pools].
  destruct (querySync_returns this (fst qv) (snd qv) net
              (mkWorld (tr ++ [Console (LogParameters params)]) cs n)) as [r H].
  destruct (querySync this (fst qv) (snd qv) net _) as [[r'| |] w']; cbn in H;
    try discriminate; reflexivity.
Qed.

Lemma hashQuerySync_failed this q values net w e :
  resolve this q values = Throw e ->
  exists logged,
    forallb is_console logged = true
    /\ hashQuerySync this q values net w
       = (Return Undefined,
          mkWorld (trace w ++ logged ++ [Console (LogCaught e)]) (_connections w) (pools w)).
Proof.
  destruct w as [tr cs n].
  unfold hashQuerySync, resolve, try_catch, bind, lift, console, emit.
  destruct (require_secret this) as [[]|e0|]; cbn [obind]; try discriminate.
  2:{ intros [= ->]. exists []. split; reflexivity. }
  destruct (_prepareHashParams this values) as [params|e0|]; cbn [obind]; try discriminate.
  2:{ intros [= ->]. exists []. split; reflexivity. }
  intros Hs. rewrite Hs. exists [Console (LogParameters params)]. split; [reflexivity|].
  cbn [trace _connections pools ret]. rewrite <- app_assoc. reflexivity.
Qed.
End Resolver.

(* ================================================================== *)
(** ** The resolved parameters and the digest *)

Lemma hash_status_configured {crypto : NodeCrypto} this s a digest_hex :
  hash (_configs this) = Some (mkHashConfiguration (Some s) (Some a)) ->
  createHmac a s = Hmac digest_hex ->
  hash_status this = Return digest_hex.
Proof. intros Hh Hc. unfold hash_status. rewrite Hh. cbn. rewrite Hc. reflexivity. Qed.

(** C7.  [_prepareHashParams] returns the fields of the hash group,
    in key-enumeration order, each with the hex HMAC digest of its value
    under the configured secret and algorithm, followed by the fields of
    the other group, in key-enumeration order, each with its value
    unchanged.  The configuration is needed only when the hash group has
    a field. *)
Theorem prepareHashParams_hash_then_other :
  forall (crypto : NodeCrypto) this values digest_hex,
    hash_fields values = []
    \/ (exists s a, hash (_configs this) = Some (mkHashConfiguration (Some s) (Some a))
                    /\ createHmac a s = Hmac digest_hex) ->
    NoDup (Object_keys (hash_fields values)) ->
    NoDup (Object_keys (other_fields values)) ->
    _prepareHashParams this values
    = Return (map (fun kv => mkParameter (fst kv) (digest_hex (snd kv))) (hash_fields values)
              ++ map (fun kv => mkParameter (fst kv) (snd kv)) (other_fields values)).
Proof.
  intros crypto this values digest_hex Hcfg NdH NdO.
  rewrite <- (map_own_values (fun k v => mkParameter k (digest_hex v)) _ NdH).
  rewrite <- (map_own_values (fun k v => mkParameter k v) _ NdO).
  rewrite prepare_cases. fold (other_parameters values).
  destruct (hash_fields values) as [|kv h'] eqn:Hf.
  - reflexivity.
  - destruct Hcfg as [Hnil | (s & a & Hh & Hc)]; [discriminate|].
    rewrite (hash_status_configured this Hh Hc). cbn [obind].
    unfold hash_parameters. rewrite Hf. reflexivity.
Qed.

Lemma prepareHashParams_hash_then_other_witness :
  @_prepareHashParams reference_crypto (configured (Some "k") (Some "sha256"))
                      (mkTemplateParameters (Some [("a", "x")]) (Some [("b", "y")]))
  = Return [mkParameter "a" (SHA256.hmac_hex "k" "x"); mkParameter "b" "y"].
Proof.
  apply (@prepareHashParams_hash_then_other
           reference_crypto (configured (Some "k") (Some "sha256"))
           (mkTemplateParameters (Some [("a", "x")]) (Some [("b", "y")]))
           (SHA256.hmac_hex "k")).
  - right. exists "k", "sha256". split; reflexivity.
  - repeat constructor; simpl; intuition.
  - repeat constructor; simpl; intuition.
Defined.

(** C8.  The digest depends on nothing but the configured secret, the
    configured algorithm and the value: two facades that agree on both
    give the same result for every value, whatever else differs.  And the
    secret matters: with HMAC-SHA-256 the digests of ["alice"] under the
    secrets ["k"] and ["K"] differ. *)
Theorem hash_deterministic_and_keyed :
  (forall (crypto : NodeCrypto) this1 this2 h1 h2 value,
      hash (_configs this1) = Some h1 -> hash (_configs this2) = Some h2 ->
      secret h1 = secret h2 -> algorithm h1 = algorithm h2 ->
      _hash this1 value = _hash this2 value)
  /\ (exists value s1 s2 d1 d2,
         @_hash reference_crypto (configured (Some s1) (Some "sha256")) value = Return d1
         /\ @_hash reference_crypto (configured (Some s2) (Some "sha256")) value = Return d2
         /\ d1 <> d2).
Proof.
  split.
  - intros crypto this1 this2 h1 h2 value H1 H2 Hs Ha.
    unfold _hash. rewrite H1, H2, Hs, Ha. reflexivity.
  - exists "alice", "k", "K".
    eexists. eexists. split; [vm_compute; reflexivity|].
    split; [vm_compute; reflexivity|]. discriminate.
Qed.

Lemma hash_deterministic_and_keyed_witness :
  @_hash reference_crypto (configured (Some "k") (Some "sha256")) "alice"
  = @_hash reference_crypto
           (mkDewartPG (mkInput sample_pool (Some true)
                                (Some (mkHashConfiguration (Some "k") (Some "sha256")))) 5)
           "alice".
Proof.
  apply (proj1 hash_deterministic_and_keyed reference_crypto
               (configured (Some "k") (Some "sha256"))
               (mkDewartPG (mkInput sample_pool (Some true)
                                    (Some (mkHashConfiguration (Some "k") (Some "sha256")))) 5)
               (mkHashConfiguration (Some "k") (Some "sha256"))
               (mkHashConfiguration (Some "k") (Some "sha256")) "alice");
    reflexivity.
Defined.

(* ================================================================== *)
(** ** The login scenario *)

(** C2.  With secret ["k"] and algorithm ["sha256"], the query
    ["SELECT * FROM users WHERE {%login%}={&login&}"], the hash group
    [{login: "alice"}] and an empty other group resolve to
    ["SELECT * FROM users WHERE login=$1"] and exactly one bind value,
    the hex HMAC-SHA-256 of ["alice"] under the key ["k"]; this is what
    [hashQuery] passes to [query], inside its try block, and
    [hashQuerySync] to [querySync]. *)
Theorem login_scenario :
  forall pool_cfg logging n,
    let this := mkDewartPG (mkInput pool_cfg logging
                                    (Some (mkHashConfiguration (Some "k") (Some "sha256")))) n in
    let values := mkTemplateParameters (Some [("login", "alice")]) (Some []) in
    let q := "SELECT * FROM users WHERE {%login%}={&login&}" in
    let q' := "SELECT * FROM users WHERE login=$1" in
    let v := [SHA256.hmac_hex "k" "alice"] in
    @resolve reference_crypto this q values = Return (q', v)
    /\ SHA256.hmac_hex "k" "alice"
       = "ec631a55bb81f5b9dc96aa930a45628d452abe41f899db1085bc350c0c9cf9a1"
    /\ (forall callback error net w,
           @hashQuery reference_crypto this q values callback error net w
           = try_catch (query this q' v callback error net) (caught error) w
           /\ snd (@hashQuery reference_crypto this q values callback error net w)
              = snd (query this q' v callback error net w))
    /\ (forall net w,
           @hashQuerySync reference_crypto this q values net w
           = querySync this q' v net
                       (mkWorld (trace w ++ [Console (LogParameters
                                                        [mkParameter "login" (SHA256.hmac_hex "k" "alice")])])
                                (_connections w) (pools w))).
Proof.
  intros pool_cfg logging n this values q q' v.
  assert (Hres : @resolve reference_crypto this q values = Return (q', v)).
  { vm_compute. reflexivity. }
  split; [exact Hres|]. split; [vm_compute; reflexivity|]. split.
  - intros callback error net w. rewrite hashQuery_by_resolve, Hres. cbn [fst snd].
    split; [reflexivity|]. rewrite caught_query. reflexivity.
  - intros net w.
    destruct (@hashQuerySync_resolved reference_crypto this q values net w _ Hres)
      as (params & Hp & ->).
    assert (Hparams : @_prepareHashParams reference_crypto this values
                      = Return [mkParameter "login" (SHA256.hmac_hex "k" "alice")]).
    { vm_compute. reflexivity. }
    rewrite Hparams in Hp. injection Hp as <-. reflexivity.
Qed.

(* ================================================================== *)
(** ** Hash configuration errors *)

(** C3, as stated, fails: with no secret configured and only an
    "other" field requested, the resolver throws the configuration
    error, and [hashQuery] hands it to the error handler. *)
Lemma secret_required_without_hash_fields :
  let this := configured None None in
  let values := mkTemplateParameters None (Some [("b", "y")]) in
  hash_fields values = []
  /\ @resolve reference_crypto this "SELECT {&b&}" values = Throw ConfigurationError
  /\ events (@hashQuery reference_crypto this "SELECT {&b&}" values (Some 1) (Some 2)
                        (ConnectOk (QueryOk [])))
     = [Invoke 2 (AError ConfigurationError)].
Proof. vm_compute. repeat split. Qed.

(** C3, amended.  The resolver throws the configuration error exactly
    when the hash configuration lacks the secret (whether or not a hash
    field is requested), or has the secret, lacks the algorithm and a
    hash field is requested; with no hash object at all in the
    configuration it throws a TypeError instead.  When the resolver
    throws, [hashQuery] only
    hands the error to the error handler, if any, and [hashQuerySync]
    only writes to the console and returns [undefined]: nothing reaches
    the pool.  With a secret configured, no hash field requested and
    plain names in the other group, the resolver succeeds whatever the
    algorithm. *)
Theorem configuration_error_cases :
  forall (crypto : NodeCrypto) this q values,
    (resolve this q values = Throw ConfigurationError
     <-> exists h, hash (_configs this) = Some h
                   /\ (secret h = None \/ (algorithm h = None /\ hash_fields values <> [])))
    /\ (hash (_configs this) = None -> resolve this q values = Throw TypeError)
    /\ (forall e, resolve this q values = Throw e ->
          (forall callback error net w,
              hashQuery this q values callback error net w
              = (Return tt, mkWorld (trace w ++ handed_to error e) (_connections w) (pools w)))
          /\ (forall net w, exists logged,
                 forallb is_console logged = true
                 /\ hashQuerySync this q values net w
                    = (Return Undefined,
                       mkWorld (trace w ++ logged ++ [Console (LogCaught e)])
                               (_connections w) (pools w))))
    /\ (forall h s, hash (_configs this) = Some h -> secret h = Some s ->
          hash_fields values = [] ->
          forallb plain_name (Object_keys (other_fields values)) = true ->
          resolve this q values
          = Return (literal_resolution q 0 (other_parameters values),
                    map value (other_parameters values))).
Proof.
  intros crypto this q values. split; [|split; [|split]].
  2:{ intros Hh. unfold resolve, require_secret. rewrite Hh. reflexivity. }
  - unfold resolve, require_secret. rewrite prepare_cases.
    destruct (hash (_configs this)) as [[sec alg]|] eqn:Hh; cbn [obind].
    2:{ split; [discriminate | intros (h & [=] & _)]. }
    destruct sec as [s|]; cbn [obind].
    2:{ split; [|reflexivity]. intros _. eexists. split; [reflexivity|]. left. reflexivity. }
    assert (Hsub : forall ps, substitute q ps <> Throw ConfigurationError).
    { intros ps H. apply substitute_throws in H. discriminate. }
    destruct (hash_fields values) as [|kv h'] eqn:Hf.
    + split; [intros H; exfalso; eapply Hsub, H|].
      intros (h & [= <-] & [H | [_ H]]); [discriminate | congruence].
    + unfold hash_status. rewrite Hh. cbn [secret algorithm].
      destruct alg as [a|].
      * split.
        -- destruct (createHmac a s); cbn [obind]; intros H;
             [exfalso; eapply Hsub, H | discriminate | discriminate].
        -- intros (h & [= <-] & [H | [H _]]); discriminate.
      * cbn [obind]. split; [|reflexivity].
        intros _. eexists. split; [reflexivity|]. right. split; [reflexivity | discriminate].
  - intros e He. split.
    + intros callback error net w. rewrite hashQuery_by_resolve, He. reflexivity.
    + intros net w. apply hashQuerySync_failed, He.
  - intros h s Hh Hs Hf Hplain.
    unfold resolve, require_secret. rewrite Hh, Hs. cbn [obind].
    rewrite prepare_cases, Hf. cbn [obind].
    apply substitute_plain. unfold other_parameters. rewrite forallb_over_map. exact Hplain.
Qed.

Lemma configuration_error_cases_witness :
  @resolve reference_crypto (configured (Some "k") None) "SELECT {&b&}"
           (mkTemplateParameters None (Some [("b", "y")]))
  = Return ("SELECT $1", ["y"]).
Proof.
  apply (proj2 (proj2 (proj2 (@configuration_error_cases
                                reference_crypto (configured (Some "k") None) "SELECT {&b&}"
                                (mkTemplateParameters None (Some [("b", "y")])))))
               (mkHashConfiguration (Some "k") None) "k");
    reflexivity.
Defined.

(* ================================================================== *)
(** ** Bind values and positional placeholders *)

(** C4, as stated, fails: a field whose value marker does not occur in
    the query still gets a bind value, so there are more bind values
    than positional placeholders in the rewritten query. *)
Lemma bind_value_without_placeholder :
  exists q' v,
    @resolve reference_crypto (configured (Some "k") (Some "sha256")) "SELECT 1"
             (mkTemplateParameters (Some [("a", "x")]) None)
    = Return (q', v)
    /\ List.length v = 1 /\ distinct_placeholders q' = 0.
Proof. eexists. eexists. vm_compute. repeat split. Qed.

(** C4, amended.  Once the secret is configured and the parameters
    are resolved, the bind values are the values of the resolved fields,
    one per field and in their order, whether or not a marker occurs in
    the query.  When the field names are free of regular-expression
    syntax characters, the rewritten query is what the fields, taken in
    that order, make of it step by step: step i replaces, in the query as
    rewritten so far, every occurrence of the name marker of the i-th
    field by its name and then every occurrence of its value marker by
    [$i].  (A field whose name an earlier field has finds no marker left:
    its bind value has no placeholder.) *)
Theorem bind_values_follow_fields :
  forall (crypto : NodeCrypto) this q values params,
    require_secret this = Return tt ->
    _prepareHashParams this values = Return params ->
    (forall q' v, resolve this q values = Return (q', v) ->
                  v = map value params /\ List.length v = List.length params)
    /\ (forallb (fun p => plain_name (name p)) params = true ->
        resolve this q values = Return (literal_resolution q 0 params, map value params)).
Proof.
  intros crypto this q values params Hsec Hprep.
  unfold resolve. rewrite Hsec, Hprep. cbn [obind]. split.
  - intros q' v H. unfold substitute in H.
    destruct (for_each params substitute_step (q, 0, [])) as [[[q1 c1] v1]| |] eqn:E;
      cbn in H; try discriminate.
    injection H as <- <-.
    apply substitute_loop_binds in E as [-> _]. cbn [app].
    split; [reflexivity | apply length_map].
  - apply substitute_plain.
Qed.

Lemma bind_values_follow_fields_witness :
  @resolve reference_crypto (configured (Some "k") (Some "sha256"))
           "UPDATE t SET {%b%}={&b&} WHERE {%a%}={&a&}"
           (mkTemplateParameters (Some [("a", "x")]) (Some [("b", "y")]))
  = Return ("UPDATE t SET b=$2 WHERE a=$1", [SHA256.hmac_hex "k" "x"; "y"]).
Proof.
  assert (Hsec : require_secret (configured (Some "k") (Some "sha256")) = Return tt)
    by reflexivity.
  assert (Hprep : @_prepareHashParams
                    reference_crypto (configured (Some "k") (Some "sha256"))
                    (mkTemplateParameters (Some [("a", "x")]) (Some [("b", "y")]))
                  = Return [mkParameter "a" (SHA256.hmac_hex "k" "x"); mkParameter "b" "y"])
    by (vm_compute; reflexivity).
  rewrite (proj2 (@bind_values_follow_fields
                    reference_crypto (configured (Some "k") (Some "sha256"))
                    "UPDATE t SET {%b%}={&b&} WHERE {%a%}={&a&}"
                    (mkTemplateParameters (Some [("a", "x")]) (Some [("b", "y")]))
                    [mkParameter "a" (SHA256.hmac_hex "k" "x"); mkParameter "b" "y"]
                    Hsec Hprep)).
  - vm_compute. reflexivity.
  - vm_compute. reflexivity.
Defined.

(** The steps are sequential: with the name [a] in both groups the
    hash field takes every marker, and the other field's value is bound
    to a placeholder that does not occur. *)
Example same_name_in_both_groups :
  @resolve reference_crypto (configured (Some "k") (Some "sha256"))
           "WHERE h={&a&} AND o={&a&}"
           (mkTemplateParameters (Some [("a", "x")]) (Some [("a", "clear")]))
  = Return ("WHERE h=$1 AND o=$1", [SHA256.hmac_hex "k" "x"; "clear"]).
Proof. vm_compute. reflexivity. Qed.

(* ================================================================== *)
(** ** Errors of the callback style *)

(** C5, as stated, fails: without an error handler a query error is
    not written to the console, and the success callback runs, with
    [undefined]; a connection error ends in an uncaught TypeError. *)
Lemma unhandled_error_is_not_logged :
  let this := configured None None in
  let on_query_error :=
    events (query this "SELECT 1" [] (Some 1) None (ConnectOk (QueryFails 7))) in
  let on_connect_error :=
    events (query this "SELECT 1" [] (Some 1) None (ConnectFails 7)) in
  logged_and_dropped (QueryError 7) on_query_error = false
  /\ on_query_error
     = [PoolConnect 0; Lease 0; ClientQuery 0 "SELECT 1" []; Release 0; Invoke 1 (AResult None)]
  /\ logged_and_dropped (ConnectionError 7) on_connect_error = false
  /\ on_connect_error = [PoolConnect 0; Uncaught TypeError].
Proof. vm_compute. repeat split. Qed.

(** C5, amended.  When a callback-style call meets a connection or
    query error and an error handler was supplied, the error goes to
    that handler and no other caller-supplied function runs; when no
    error handler was supplied, the error goes to no handler and no
    console line reports it. *)
Theorem callback_errors_reach_the_handler_only :
  forall (crypto : NodeCrypto) this,
    (forall q v callback error net e w,
        failure net = Some e ->
        exists evs,
          trace (snd (query this q v callback error net w)) = trace w ++ evs
          /\ routed error e evs)
    /\ (forall q values callback error net e w qv,
           resolve this q values = Return qv ->
           failure net = Some e ->
           exists evs,
             trace (snd (hashQuery this q values callback error net w)) = trace w ++ evs
             /\ routed error e evs).
Proof.
  intros crypto this.
  assert (Hquery : forall q v callback error net e w,
             failure net = Some e ->
             exists evs,
               trace (snd (query this q v callback error net w)) = trace w ++ evs
               /\ routed error e evs).
  { intros q v callback error net e [tr cs n] Hf. unfold query.
    destruct net as [code|[code|r]|]; cbn [failure] in Hf; try discriminate;
      injection Hf as <-;
      destruct (logs_enabled this), error, callback; run;
      eexists; (split; [rewrite <- ?app_assoc; reflexivity|]);
      cbn; auto. }
  split; [exact Hquery|].
  intros q values callback error net e w qv Hres Hf.
  rewrite hashQuery_by_resolve, Hres, caught_query. cbn [snd]. apply Hquery, Hf.
Qed.

Lemma callback_errors_reach_the_handler_only_witness :
  exists evs,
    trace (snd (query (configured None None) "SELECT 1" [] (Some 1) (Some 2)
                      (ConnectOk (QueryFails 7)) empty_world))
    = trace empty_world ++ evs
    /\ routed (Some 2) (QueryError 7) evs.
Proof.
  apply (proj1 (@callback_errors_reach_the_handler_only
                  reference_crypto (configured None None))
               "SELECT 1" [] (Some 1) (Some 2) (ConnectOk (QueryFails 7))
               (QueryError 7) empty_world).
  reflexivity.
Defined.

(* ================================================================== *)
(** ** Field names as regular expressions *)

(** C10.  The field name goes into the pattern unescaped.  For a name
    free of syntax characters both markers are replaced as literal text,
    everywhere.  Otherwise the pattern decides: with the name [a.b] the
    text [{%axb%}] is rewritten as well; with the name [*] the markers
    [{%*%}] and [{&*&}] are left in place while a bind value is pushed;
    with the name [(a)] the value marker [{&a&}] becomes the captured
    text instead of [$1]; and with the name [(] the pattern is invalid:
    the loop throws a SyntaxError, [hashQuery] hands it to the error
    handler and [hashQuerySync] returns [undefined], and nothing is
    resolved. *)
Theorem field_names_are_patterns :
  (forall q counter v p,
      plain_name (name p) = true ->
      substitute_step (q, counter, v) p
      = Return (replaceAll (replaceAll q (name_marker (name p)) (name p))
                           (value_marker (name p)) (placeholder (S counter)),
                S counter, v ++ [value p]))
  /\ (substitute_step ("{%axb%}={&a.b&}", 0, []) (mkParameter "a.b" "v")
      = Return ("a.b=$1", 1, ["v"])
      /\ replaceAll "{%axb%}={&a.b&}" (name_marker "a.b") "a.b" = "{%axb%}={&a.b&}")
  /\ (substitute_step ("{%*%}={&*&}", 0, []) (mkParameter "*" "v")
      = Return ("{%*%}={&*&}", 1, ["v"])
      /\ replaceAll (replaceAll "{%*%}={&*&}" (name_marker "*") "*")
                    (value_marker "*") (placeholder 1) = "*=$1")
  /\ substitute_step ("x={&a&}", 0, []) (mkParameter "(a)" "v") = Return ("x=a", 1, ["v"])
  /\ (forall q, substitute_step (q, 0, []) (mkParameter "(" "v") = Throw SyntaxError)
  /\ (forall (crypto : NodeCrypto) q callback error net w,
         let this := configured (Some "k") None in
         let values := mkTemplateParameters None (Some [("(", "v")]) in
         resolve this q values = Throw SyntaxError
         /\ hashQuery this q values callback error net w
            = (Return tt,
               mkWorld (trace w ++ handed_to error SyntaxError) (_connections w) (pools w))
         /\ fst (hashQuerySync this q values net w) = Return Undefined).
Proof.
  split; [intros; apply substitute_step_plain; assumption|].
  split; [split; vm_compute; reflexivity|].
  split; [split; vm_compute; reflexivity|].
  split; [vm_compute; reflexivity|].
  split; [intros q; vm_compute; reflexivity|].
  intros crypto q callback error net w this values.
  assert (Hres : resolve this q values = Throw SyntaxError) by (vm_compute; reflexivity).
  split; [exact Hres|]. split.
  - rewrite hashQuery_by_resolve, Hres. reflexivity.
  - destruct (hashQuerySync_failed this q values net w Hres) as (logged & _ & ->).
    reflexivity.
Qed.

Lemma field_names_are_patterns_witness :
  substitute_step ("WHERE {%login%}={&login&}", 0, []) (mkParameter "login" "v")
  = Return ("WHERE login=$1", 1, ["v"]).
Proof.
  apply (proj1 field_names_are_patterns
               "WHERE {%login%}={&login&}" 0 [] (mkParameter "login" "v")).
  reflexivity.
Defined.

(* ================================================================== *)
(** ** More on the callback executor *)

(** X1.  Once a client is leased, [query] sends the statement and the
    values it was given, releases the client as soon as the database
    answers, and only then calls a caller-supplied function: at most one,
    at most once. *)
Theorem query_releases_before_notifying :
  forall this q v callback error reply w,
  exists notified,
    trace (snd (query this q v callback error (ConnectOk reply) w))
    = trace w ++ logs_line this q v
      ++ [PoolConnect (_pool this); Lease (_pool this);
          ClientQuery (_pool this) q v; Release (_pool this)]
      ++ notified
    /\ forallb is_invoke notified = true /\ List.length notified <= 1.
Proof.
  intros this q v callback error reply [tr cs n]. unfold query, logs_line.
  destruct (logs_enabled this), reply as [code|r], error, callback; run;
    eexists; (split; [rewrite <- ?app_assoc; cbn [app]; reflexivity|]);
    cbn; auto.
Qed.

(** X2.  When the statement succeeds, the rows go to the success
    callback, once, and the error handler is not called; with no
    callback, no caller-supplied function is called at all. *)
Theorem query_success_reaches_callback_only :
  forall this q v callback error r w,
    filter is_invoke (trace (snd (query this q v callback error (ConnectOk (QueryOk r)) w)))
    = filter is_invoke (trace w)
      ++ match callback with
         | Some h => [Invoke h (AResult (Some r))]
         | None => []
         end.
Proof.
  intros this q v callback error r [tr cs n]. unfold query.
  destruct (logs_enabled this), error, callback; run;
    repeat rewrite filter_app; cbn; rewrite ?app_nil_r; reflexivity.
Qed.

(** X3.  When the pool cannot lease a client, nothing is leased,
    released or sent, and the success callback is not called.  With an
    error handler the connection error goes to it and [query] returns.
    Without one [query] goes on to call [client.query] on the missing
    client: when the pool is alive this happens in the callback the event
    loop runs, and the TypeError escapes there while [query] has
    returned; when the pool has been ended it happens inside the call,
    and the TypeError is thrown at the caller of [query]. *)
Theorem query_connection_failure_sends_nothing :
  forall this q v callback error code w,
    query this q v callback error (ConnectFails code) w
    = (Return tt,
       mkWorld (trace w ++ logs_line this q v ++ [PoolConnect (_pool this)]
                        ++ match error with
                           | Some h => [Invoke h (AError (ConnectionError code))]
                           | None => [Uncaught TypeError]
                           end)
               (_connections w) (pools w))
    /\ query this q v callback error PoolEnded w
       = (match error with
          | Some _ => Return tt
          | None => Throw TypeError
          end,
          mkWorld (trace w ++ logs_line this q v ++ [PoolConnect (_pool this)]
                           ++ match error with
                              | Some h => [Invoke h (AError pool_ended)]
                              | None => []
                              end)
                  (_connections w) (pools w)).
Proof.
  intros this q v callback error code [tr cs n]. unfold query, logs_line.
  split; destruct (logs_enabled this), error, callback; run;
    rewrite <- ?app_assoc; reflexivity.
Qed.

(** X4.  Whatever the pool and the database answer, [query] writes
    nothing to the console but the line of the [logs] switch. *)
Theorem query_console_is_the_logs_line :
  forall this q v callback error net w,
    filter is_console (trace (snd (query this q v callback error net w)))
    = filter is_console (trace w) ++ logs_line this q v.
Proof.
  intros this q v callback error net [tr cs n]. unfold query, logs_line.
  destruct (logs_enabled this), net as [code|[code|r]|], error, callback; run;
    repeat rewrite filter_app; cbn; rewrite ?app_nil_r; reflexivity.
Qed.



(** X6.  [hashQuery] never keeps a client: over any call, the clients
    released are as many as the clients leased. *)
Theorem hashQuery_releases_what_it_leases :
  forall (crypto : NodeCrypto) this q values callback error net w,
    let w' := snd (hashQuery this q values callback error net w) in
    leases w' + releases w = releases w' + leases w.
Proof.
  intros crypto this q values callback error net w. cbv zeta.
  rewrite hashQuery_by_resolve.
  destruct (resolve this q values) as [qv|e|].
  - rewrite caught_query. cbn [snd].
    pose proof (query_balanced this (fst qv) (snd qv) callback error net w) as H.
    cbv zeta in H. lia.
  - destruct w as [tr cs n]. cbn [snd trace _connections pools].
    unfold leases, releases. cbn [trace]. rewrite !filter_app, !length_app.
    destruct error; cbn; lia.
  - cbn. lia.
Qed.

(* ================================================================== *)
(** ** More on the blocking template call *)

Lemma querySync_answer this q v net w :
  fst (querySync this q v net w)
  = Return (match net with
            | ConnectOk (QueryOk r) => Result r
            | _ => False
            end).
Proof.
  destruct w as [tr cs n]. unfold querySync.
  destruct (logs_enabled this), net as [code|[code|r]|]; reflexivity.
Qed.

(** X7.  [hashQuerySync] never throws.  It returns the rows when the
    resolver and the statement succeed, [false] when the resolver
    succeeds and the pool or the statement fails, and [undefined] when
    the resolver throws. *)
Theorem hashQuerySync_returns_rows_false_or_undefined :
  forall (crypto : NodeCrypto) this q values net w,
    fst (hashQuerySync this q values net w)
    = match resolve this q values with
      | Return _ =>
          Return (match net with
                  | ConnectOk (QueryOk r) => Result r
                  | _ => False
                  end)
      | Throw _ => Return Undefined
      | Beyond => Beyond
      end.
Proof.
  intros crypto this q values net w.
  destruct (resolve this q values) as [qv|e|] eqn:Hres.
  - destruct (hashQuerySync_resolved this q values net w Hres) as (params & _ & ->).
    apply querySync_answer.
  - destruct (hashQuerySync_failed this q values net w Hres) as (logged & _ & ->).
    reflexivity.
  - destruct w as [tr cs n].
    unfold resolve in Hres. unfold hashQuerySync, try_catch, bind, lift, console, emit.
    destruct (require_secret this) as [[]|e|]; cbn [obind] in Hres; try discriminate;
      [|reflexivity].
    destruct (_prepareHashParams this values) as [params|e|]; cbn [obind] in Hres;
      try discriminate; [|reflexivity].
    rewrite Hres. reflexivity.
Qed.

(** X8.  [hashQuerySync] keeps a client exactly when [querySync]
    does: the resolver succeeded, a client was leased and the database
    rejected the statement.  When the resolver throws, nothing is leased. *)
Theorem hashQuerySync_keeps_client_on_query_failure :
  forall (crypto : NodeCrypto) this q values net w,
    let w' := snd (hashQuerySync this q values net w) in
    match resolve this q values with
    | Return _ =>
        leases w' = leases w + (match net with ConnectOk _ => 1 | _ => 0 end)
        /\ releases w' = releases w
                         + (match net with ConnectOk (QueryOk _) => 1 | _ => 0 end)
    | Throw _ => leases w' = leases w /\ releases w' = releases w
    | Beyond => True
    end.
Proof.
  intros crypto this q values net w. cbv zeta.
  destruct (resolve this q values) as [qv|e|] eqn:Hres; [| |exact I].
  - destruct (hashQuerySync_resolved this q values net w Hres) as (params & _ & ->).
    pose proof (querySync_balance this (fst qv) (snd qv) net
                  (mkWorld (trace w ++ [Console (LogParameters params)])
                           (_connections w) (pools w))) as H.
    cbv zeta in H. destruct H as [Hl Hr]. rewrite Hl, Hr.
    unfold leases, releases. cbn [trace]. rewrite !filter_app, !length_app. cbn. lia.
  - destruct (hashQuerySync_failed this q values net w Hres) as (logged & Hlog & ->).
    unfold leases, releases. cbn [snd trace]. rewrite !filter_app, !length_app.
    assert (Hnone : filter is_lease logged = [] /\ filter is_release logged = []).
    { clear - Hlog. induction logged as [|ev l IH]; [split; reflexivity|].
      cbn [forallb] in Hlog. apply andb_true_iff in Hlog as [Hev Hl].
      destruct ev; try discriminate. cbn [filter is_lease is_release]. apply IH, Hl. }
    destruct Hnone as [-> ->]. cbn. lia.
Qed.

(* ================================================================== *)
(** ** More on the resolved parameters *)

Lemma push_loop_names (f : string -> outcome string) keys :
  forall acc ps,
    for_each keys (fun result key => value <~ f key ;; Return (result ++ [mkParameter key value]))
             acc
    = Return ps ->
    map name ps = map name acc ++ keys.
Proof.
  induction keys as [|k keys IH]; intros acc ps H.
  - cbn in H. injection H as <-. rewrite app_nil_r. reflexivity.
  - cbn [for_each] in H. destruct (f k) as [v| |]; cbn [obind] in H; try discriminate.
    apply IH in H. rewrite H, map_app. cbn. rewrite <- app_assoc. reflexivity.
Qed.

(** X9.  Whenever [_prepareHashParams] returns, the names of the
    resolved parameters are the keys of the hash group followed by the
    keys of the other group, so there is one parameter per field.  And
    it is all or nothing: when [_hash] throws on the first hash field,
    [_prepareHashParams] throws the same error, whatever the other
    fields and the other group are. *)
Theorem prepareHashParams_names_or_error :
  forall (crypto : NodeCrypto) this values,
    (forall ps, _prepareHashParams this values = Return ps ->
                map name ps
                = Object_keys (hash_fields values) ++ Object_keys (other_fields values)
                /\ List.length ps
                   = List.length (hash_fields values) + List.length (other_fields values))
    /\ (forall k v rest e,
           hash_fields values = (k, v) :: rest ->
           _hash this v = Throw e ->
           _prepareHashParams this values = Throw e).
Proof.
  intros crypto this values. split.
  - intros ps H.
    assert (Hnames : map name ps
                     = Object_keys (hash_fields values) ++ Object_keys (other_fields values)).
    { unfold _prepareHashParams, hash_fields, other_fields in *.
      destruct (tp_hash values) as [h|].
      - destruct (for_each (Object_keys h) _ []) as [hs| |] eqn:Eh; cbn [obind] in H;
          try discriminate.
        apply (push_loop_names (fun key => _hash this (get h key))) in Eh. cbn in Eh.
        destruct (tp_other values) as [o|].
        + apply (push_loop_names (fun key => Return (get o key))) in H.
          rewrite H, Eh. reflexivity.
        + injection H as <-. rewrite Eh, app_nil_r. reflexivity.
      - cbn [obind] in H. destruct (tp_other values) as [o|].
        + apply (push_loop_names (fun key => Return (get o key))) in H. exact H.
        + injection H as <-. reflexivity. }
    split; [exact Hnames|].
    rewrite <- (length_map name ps), Hnames, length_app.
    unfold Object_keys. rewrite !length_map. reflexivity.
  - intros k v rest e Hf Hthrow.
    rewrite prepare_cases, Hf.
    rewrite hash_by_status in Hthrow.
    destruct (hash_status this) as [d|e'|]; cbn [obind] in *; congruence.
Qed.

Lemma prepareHashParams_names_or_error_witness :
  @_prepareHashParams reference_crypto (configured (Some "k") None)
                      (mkTemplateParameters (Some [("a", "x")]) (Some [("b", "y")]))
  = Throw ConfigurationError.
Proof.
  apply (proj2 (@prepareHashParams_names_or_error
                  reference_crypto (configured (Some "k") None)
                  (mkTemplateParameters (Some [("a", "x")]) (Some [("b", "y")])))
               "a" "x" [] ConfigurationError);
    reflexivity.
Defined.

(* ================================================================== *)
(** ** Statements without markers *)

Lemma literal_replace_skips pat repl :
  forall fuel s,
    forallb (fun c => negb (Ascii.eqb c "{")) s = true ->
    literal_replace_from fuel ("{"%char :: pat) repl s = s.
Proof.
  induction fuel as [|fuel IH]; intros s Hs; [reflexivity|].
  destruct s as [|c tl]; [reflexivity|].
  cbn [forallb] in Hs. apply andb_true_iff in Hs as [Hc Htl].
  cbn [literal_replace_from strip_prefix].
  rewrite Ascii.eqb_sym. destruct (Ascii.eqb c "{"); [discriminate|].
  rewrite IH by assumption. reflexivity.
Qed.

Lemma replaceAll_brace_free q delim body repl :
  brace_free q = true ->
  str (literal_replace_from (S (List.length (chars q)))
                            (RegExpNotions.marker_chars delim body) repl (chars q)) = q.
Proof.
  intros Hq. unfold RegExpNotions.marker_chars.
  rewrite literal_replace_skips by exact Hq. apply str_chars.
Qed.

Lemma literal_resolution_brace_free q :
  brace_free q = true ->
  forall ps counter, literal_resolution q counter ps = q.
Proof.
  intros Hq. induction ps as [|p ps IH]; intros counter; [reflexivity|].
  cbn [literal_resolution].
  assert (H1 : replaceAll q (name_marker (name p)) (name p) = q).
  { unfold replaceAll. rewrite chars_name_marker. apply replaceAll_brace_free, Hq. }
  rewrite H1.
  assert (H2 : replaceAll q (value_marker (name p)) (placeholder (S counter)) = q).
  { unfold replaceAll. rewrite chars_value_marker. apply replaceAll_brace_free, Hq. }
  rewrite H2. apply IH.
Qed.

(** X10.  A statement with no opening brace goes through the
    substitution loop unchanged, for any fields with plain names; the
    loop still pushes the value of every field, so the statement is sent
    with bind values it has no placeholder for. *)
Theorem statement_without_markers_is_unchanged :
  forall q ps,
    brace_free q = true ->
    forallb (fun p => plain_name (name p)) ps = true ->
    substitute q ps = Return (q, map value ps).
Proof.
  intros q ps Hq Hps. rewrite substitute_plain by assumption.
  rewrite literal_resolution_brace_free by assumption. reflexivity.
Qed.

Lemma statement_without_markers_is_unchanged_witness :
  substitute "SELECT now()" [mkParameter "a" "x"; mkParameter "b" "y"]
  = Return ("SELECT now()", ["x"; "y"]).
Proof.
  apply (statement_without_markers_is_unchanged
           "SELECT now()" [mkParameter "a" "x"; mkParameter "b" "y"]);
    reflexivity.
Defined.

(* ================================================================== *)
(** ** More on the life cycle *)

Lemma close_world this callback w :
  close this callback w
  = (Return tt,
     mkWorld (trace w ++ PoolEnd (_pool this)
                         :: match callback with
                            | Some h =>
                                if ended_before (_pool this) (trace w)
                                   || Nat.eqb (checked_out (_pool this) (trace w)) 0
                                then [Invoke h ANothing] else []
                            | None => []
                            end)
             (_connections w) (pools w)).
Proof.
  destruct w as [tr cs n]. unfold close. cbn [trace].
  destruct callback as [h|]; [|reflexivity].
  destruct (ended_before (_pool this) tr || Nat.eqb (checked_out (_pool this) tr) 0);
    run; rewrite <- ?app_assoc; reflexivity.
Qed.

(** X11.  [close] ends the pool of the facade.  On a facade just
    constructed it then calls the callback, if one was given; after
    [querySync] has kept a client of the pool (statement rejected), the
    pool waits for that client and the callback is not called.  In no
    case does [close] take the facade out of the static registry: after
    [close] on the first facade constructed, [disconnect] ends the same
    pool once more. *)
Theorem closed_facade_stays_registered :
  forall i inputs callback q v code,
    let w := snd (construct_all (i :: inputs) empty_world) in
    let first := mkDewartPG i 0 in
    let kept := snd (querySync first q v (ConnectOk (QueryFails code)) w) in
    close first callback w
    = (Return tt,
       mkWorld (PoolEnd 0 :: match callback with
                             | Some h => [Invoke h ANothing]
                             | None => []
                             end)
               (_connections w) (pools w))
    /\ close first callback kept
       = (Return tt, mkWorld (trace kept ++ [PoolEnd 0]) (_connections w) (pools w))
    /\ hd_error (_connections w) = Some first
    /\ filter is_pool_end (trace (snd (disconnect (snd (close first callback w)))))
       = [PoolEnd 0; PoolEnd 0].
Proof.
  intros i inputs callback q v code. cbv zeta. unfold empty_world.
  rewrite construct_all_registry. cbn [snd app registry_of].
  rewrite !close_world. cbn [snd trace _connections pools _pool app].
  split; [destruct callback; reflexivity|].
  split.
  - unfold querySync, logs_enabled. cbn [_configs].
    destruct (logs i) as [[|]|]; run; destruct callback; reflexivity.
  - split; [reflexivity|]. destruct callback; reflexivity.
Qed.

(* ================================================================== *)
(** ** The second revision *)

Ltac lrun :=
  cbv [Legacy.bind Legacy.ret Legacy.throw Legacy.lift Legacy.try_catch Legacy.later
       Legacy.emit Legacy.console Legacy.apply Legacy.typeof_function
       Legacy.pool_connect_callback Legacy.pool_connect_promise
       Legacy.client_query_callback Legacy.client_query_promise fst snd].

(** X12.  In the second revision [hashQuerySync] never reaches the
    pool or the database: the method it calls at the end,
    [this.syncQuery], does not exist there, the TypeError is caught and
    logged, and the call returns [undefined] for every input. *)
Theorem revision2_hashQuerySync_never_reaches_the_pool :
  forall (crypto : NodeCrypto) this params q net t,
    let r := Legacy.Revision2.hashQuerySync this params q net t in
    filter Legacy.touches_pool (snd r) = filter Legacy.touches_pool t
    /\ (fst r = Return Undefined \/ (fst r = Beyond /\ resolve this q params = Beyond)).
Proof.
  intros crypto this params q net t. cbv zeta.
  unfold Legacy.Revision2.hashQuerySync, Legacy.Revision2._prepareHashParams,
    current_prepareHashParams, resolve.
  destruct (require_secret this) as [[]|e|]; lrun; cbn [obind].
  2:{ rewrite filter_app. cbn. rewrite app_nil_r. auto. }
  2:{ auto. }
  destruct (_prepareHashParams this params) as [ps|e|]; cbn [obind].
  2:{ rewrite !filter_app. cbn. rewrite !app_nil_r. auto. }
  2:{ rewrite !filter_app. cbn. rewrite !app_nil_r. auto. }
  destruct (substitute q ps) as [qv|e|];
    rewrite ?filter_app; cbn; rewrite ?app_nil_r; auto.
Qed.

(** X13.  In the second revision [query] hands a connection error to
    the error handler, but never a query error: the test before the call
    is on [typeof err], so after a rejected statement the client is
    released and the success callback is called with [undefined], while
    the error handler is not called.  On a connection error with no
    error handler, [error(err)] is itself a TypeError: it escapes into
    the event loop when the pool is alive, and is thrown at the caller of
    [query] when the pool has been ended. *)
Theorem revision2_query_error_never_reaches_the_handler :
  forall q v callback error code t,
    Legacy.Revision2.query q v callback error (ConnectOk (QueryFails code)) t
    = (Return tt,
       t ++ [Legacy.PoolConnect; Legacy.Lease; Legacy.ClientQuery q (Some v); Legacy.Release]
         ++ match callback with
            | Some h => [Legacy.Invoke h (AResult None)]
            | None => []
            end)
    /\ Legacy.Revision2.query q v callback error (ConnectFails code) t
       = (Return tt,
          t ++ Legacy.PoolConnect
               :: match error with
                  | Some h => [Legacy.Invoke h (AError (ConnectionError code))]
                  | None => [Legacy.Uncaught TypeError]
                  end)
    /\ Legacy.Revision2.query q v callback error PoolEnded t
       = (match error with
          | Some _ => Return tt
          | None => Throw TypeError
          end,
          t ++ Legacy.PoolConnect
               :: match error with
                  | Some h => [Legacy.Invoke h (AError pool_ended)]
                  | None => []
                  end).
Proof.
  intros q v callback error code t. unfold Legacy.Revision2.query.
  repeat split; destruct error, callback; lrun; rewrite <- ?app_assoc; reflexivity.
Qed.

(** X14.  In the second revision an error of the resolver reaches no
    one: [hashQuery] catches it, tests [typeof err], and returns without
    calling the error handler even when one was supplied; nothing
    reaches the pool. *)
Theorem revision2_hashQuery_swallows_resolver_errors :
  forall (crypto : NodeCrypto) this params q callback error net t e,
    resolve this q params = Throw e ->
    let r := Legacy.Revision2.hashQuery this params q callback error net t in
    fst r = Return tt
    /\ filter Legacy.is_invoke (snd r) = filter Legacy.is_invoke t
    /\ filter Legacy.touches_pool (snd r) = filter Legacy.touches_pool t.
Proof.
  intros crypto this params q callback error net t e Hres. cbv zeta.
  unfold resolve in Hres.
  unfold Legacy.Revision2.hashQuery, Legacy.Revision2._prepareHashParams,
    current_prepareHashParams.
  destruct (require_secret this) as [[]|e0|]; lrun; cbn [obind] in *; try discriminate.
  2:{ auto. }
  destruct (_prepareHashParams this params) as [ps|e0|]; cbn [obind] in *; try discriminate.
  2:{ rewrite !filter_app. cbn. rewrite !app_nil_r. auto. }
  rewrite Hres. rewrite !filter_app. cbn. rewrite !app_nil_r. auto.
Qed.

Lemma revision2_hashQuery_swallows_resolver_errors_witness :
  let r := @Legacy.Revision2.hashQuery reference_crypto (configured None None)
             (mkTemplateParameters (Some [("a", "x")]) None) "SELECT {&a&}"
             (Some 1) (Some 2) (ConnectOk (QueryOk [])) [] in
  fst r = Return tt
  /\ filter Legacy.is_invoke (snd r) = []
  /\ filter Legacy.touches_pool (snd r) = [].
Proof.
  apply (@revision2_hashQuery_swallows_resolver_errors
           reference_crypto (configured None None)
           (mkTemplateParameters (Some [("a", "x")]) None) "SELECT {&a&}"
           (Some 1) (Some 2) (ConnectOk (QueryOk [])) [] ConfigurationError).
  reflexivity.
Defined.

(* ================================================================== *)
(** ** The blocking executor of the earlier revisions *)

(** X15.  [querySync] of the second revision and [syncQuery] of the
    third never throw: they return the rows, or [false] after a
    connection or query error.  They release the client only when the
    statement succeeds, so a rejected statement leaves a client leased. *)
Theorem earlier_blocking_executors_release_on_success_only :
  forall q v net t,
    Legacy.releases_on_success_only net t (Legacy.Revision2.querySync q v net t)
    /\ Legacy.releases_on_success_only net t (Legacy.Revision3.syncQuery q net t).
Proof.
  intros q v net t.
  assert (H : forall values,
             Legacy.releases_on_success_only net t (Legacy.blocking_query q values net t)).
  { intros values. unfold Legacy.releases_on_success_only, Legacy.blocking_query.
    destruct net as [code|[code|found]|]; lrun;
      repeat rewrite filter_app; repeat rewrite length_app; cbn;
      (split; [reflexivity | split; lia]). }
  split; apply H.
Qed.

(* ================================================================== *)
(** ** The third revision: values inlined into the statement *)

Lemma dollar_free_inert s : dollar_free s = true -> RegExpNotions.inert (chars s).
Proof.
  intros H matched before after.
  apply RegExpFacts.substitution_without_dollar. exact H.
Qed.

Lemma inline_step_plain q p :
  plain_name (name p) = true -> dollar_free (value p) = true ->
  Legacy.Revision3.inline_step q p
  = Return (replaceAll (replaceAll q (name_marker (name p)) (name p))
                       (value_marker (name p)) (value p)).
Proof.
  intros Hn Hv. unfold Legacy.Revision3.inline_step.
  rewrite replace_name_marker by auto using plain_name_inert. cbn [obind].
  apply replace_value_marker; auto using dollar_free_inert.
Qed.

(** X16.  In the third revision the value of every field is written
    into the statement itself: for plain field names and values without
    [$], the loop replaces every name marker by the name and every value
    marker by the value, as literal text, field after field. *)
Theorem revision3_values_are_inlined :
  forall ps q,
    forallb (fun p => plain_name (name p) && dollar_free (value p)) ps = true ->
    Legacy.Revision3.inline q ps = Return (inline_resolution q ps).
Proof.
  unfold Legacy.Revision3.inline.
  induction ps as [|p ps IH]; intros q Hall; [reflexivity|].
  cbn [forallb] in Hall. apply andb_true_iff in Hall as [Hp Hps].
  apply andb_true_iff in Hp as [Hn Hv].
  cbn [for_each]. rewrite inline_step_plain by assumption. cbn [obind].
  rewrite IH by assumption. reflexivity.
Qed.

Lemma revision3_values_are_inlined_witness :
  Legacy.Revision3.inline "SELECT * FROM t WHERE {%n%}='{&n&}'"
                          [mkParameter "n" "x' OR 'a'='a"]
  = Return "SELECT * FROM t WHERE n='x' OR 'a'='a'".
Proof.
  rewrite (revision3_values_are_inlined
             [mkParameter "n" "x' OR 'a'='a"] "SELECT * FROM t WHERE {%n%}='{&n&}'").
  - vm_compute. reflexivity.
  - reflexivity.
Defined.

Lemma revision3_query_world q callback error net t :
  Legacy.Revision3.query q callback error net t
  = (match net, error with
     | PoolEnded, None => Throw TypeError
     | _, _ => Return tt
     end,
     t ++ Legacy.Console (Legacy.LogStatement q) :: Legacy.PoolConnect
          :: match net with
             | ConnectFails code =>
                 [match error with
                  | Some h => Legacy.Invoke h (AError (ConnectionError code))
                  | None => Legacy.Uncaught TypeError
                  end]
             | ConnectOk reply =>
                 [Legacy.Lease; Legacy.ClientQuery q None; Legacy.Release;
                  match reply with
                  | QueryFails code =>
                      match error with
                      | Some h => Legacy.Invoke h (AError (QueryError code))
                      | None => Legacy.Uncaught TypeError
                      end
                  | QueryOk found =>
                      match callback with
                      | Some h => Legacy.Invoke h (AResult (Some found))
                      | None => Legacy.Uncaught TypeError
                      end
                  end]
             | PoolEnded =>
                 match error with
                 | Some h => [Legacy.Invoke h (AError pool_ended)]
                 | None => []
                 end
             end).
Proof.
  unfold Legacy.Revision3.query.
  destruct net as [code|[code|found]|], error, callback; lrun;
    rewrite <- ?app_assoc; reflexivity.
Qed.

(** X17.  In the third revision [query] calls its handlers without
    testing them.  With both supplied, every call ends in exactly one
    handler call: the error handler for a connection or query error, the
    success callback with the rows otherwise; and every client leased is
    released. *)
Theorem revision3_query_calls_exactly_one_handler :
  forall q callback error net t,
    let r := Legacy.Revision3.query q (Some callback) (Some error) net t in
    filter Legacy.is_invoke (snd r)
    = filter Legacy.is_invoke t
      ++ [match net with
          | ConnectFails code => Legacy.Invoke error (AError (ConnectionError code))
          | ConnectOk (QueryFails code) => Legacy.Invoke error (AError (QueryError code))
          | ConnectOk (QueryOk found) => Legacy.Invoke callback (AResult (Some found))
          | PoolEnded => Legacy.Invoke error (AError pool_ended)
          end]
    /\ List.length (filter Legacy.is_lease (snd r)) + List.length (filter Legacy.is_release t)
       = List.length (filter Legacy.is_release (snd r)) + List.length (filter Legacy.is_lease t).
Proof.
  intros q callback error net t. cbv zeta. rewrite revision3_query_world. cbn [snd].
  destruct net as [code|[code|found]|];
    repeat rewrite filter_app; repeat rewrite length_app; cbn; split; (reflexivity || lia).
Qed.




(** X19.  In the third revision [_prepareHashParams] needs both
    groups: it throws a TypeError when the hash group is missing, never
    returns when the other group is missing, and whenever it returns it
    returns what the current revision returns for the same parameters. *)
Theorem revision3_prepareHashParams_needs_both_groups :
  forall (crypto : NodeCrypto) this params,
    (tp_hash params = None ->
     Legacy.Revision3._prepareHashParams this params = Throw TypeError)
    /\ (forall ps, Legacy.Revision3._prepareHashParams this params = Return ps ->
          tp_hash params <> None /\ tp_other params <> None
          /\ _prepareHashParams this params = Return ps).
Proof.
  intros crypto this params. split.
  - intros Hh. unfold Legacy.Revision3._prepareHashParams. rewrite Hh. reflexivity.
  - intros ps H. unfold Legacy.Revision3._prepareHashParams, _prepareHashParams in *.
    destruct (tp_hash params) as [h|]; [|discriminate].
    destruct (for_each (Object_keys h) _ []) as [hs|e|]; cbn [obind] in *; try discriminate.
    destruct (tp_other params) as [o|]; [|discriminate].
    repeat split; try discriminate. exact H.
Qed.

Lemma revision3_prepareHashParams_needs_both_groups_witness :
  @Legacy.Revision3._prepareHashParams reference_crypto (configured (Some "k") (Some "sha256"))
     (mkTemplateParameters None (Some [("b", "y")]))
  = Throw TypeError.
Proof.
  apply (proj1 (@revision3_prepareHashParams_needs_both_groups
                  reference_crypto (configured (Some "k") (Some "sha256"))
                  (mkTemplateParameters None (Some [("b", "y")])))).
  reflexivity.
Defined.

(* ================================================================== *)
(** ** What the current resolver binds *)

(** X20.  With the secret and the algorithm configured, whatever the
    field names and the query are, the bind values the resolver returns
    are the hex digests of the hash fields' values, in key order,
    followed by the other fields' values as they are: a hash field's
    value is never bound in clear and an other field's value is never
    hashed. *)
Theorem resolver_binds_digests_then_values :
  forall (crypto : NodeCrypto) this q values s a digest_hex q' v,
    hash (_configs this) = Some (mkHashConfiguration (Some s) (Some a)) ->
    createHmac a s = Hmac digest_hex ->
    NoDup (Object_keys (hash_fields values)) ->
    NoDup (Object_keys (other_fields values)) ->
    resolve this q values = Return (q', v) ->
    v = map (fun kv => digest_hex (snd kv)) (hash_fields values)
        ++ map snd (other_fields values).
Proof.
  intros crypto this q values s a digest_hex q' v Hh Hc NdH NdO Hres.
  unfold resolve, require_secret in Hres. rewrite Hh in Hres. cbn [secret obind] in Hres.
  rewrite prepare_cases in Hres.
  assert (Hps : exists ps,
             substitute q ps = Return (q', v)
             /\ map value ps
                = map (fun kv => digest_hex (snd kv)) (hash_fields values)
                  ++ map snd (other_fields values)).
  { assert (Ho : map value (other_parameters values) = map snd (other_fields values)).
    { unfold other_parameters. rewrite map_map. cbn [value].
      rewrite (map_own_values (fun _ x => x) _ NdO). reflexivity. }
    destruct (hash_fields values) as [|kv h'] eqn:Hf.
    - cbn [obind] in Hres. eexists. split; [exact Hres|]. exact Ho.
    - rewrite (hash_status_configured this Hh Hc) in Hres. cbn [obind] in Hres.
      eexists. split; [exact Hres|].
      rewrite map_app, Ho. f_equal.
      unfold hash_parameters. rewrite map_map. cbn [value]. rewrite Hf.
      rewrite <- Hf in NdH |- *.
      rewrite (map_own_values (fun _ x => digest_hex x) _ NdH). reflexivity. }
  destruct Hps as (ps & Hsub & Hvals).
  unfold substitute in Hsub.
  destruct (for_each ps substitute_step (q, 0, [])) as [[[q1 c1] v1]| |] eqn:E;
    cbn in Hsub; try discriminate.
  injection Hsub as <- <-.
  apply substitute_loop_binds in E as [-> _]. cbn [app]. exact Hvals.
Qed.

Lemma resolver_binds_digests_then_values_witness :
  [SHA256.hmac_hex "k" "x"; "y"]
  = map (fun kv => SHA256.hmac_hex "k" (snd kv)) [("a", "x")] ++ map snd [("b", "y")].
Proof.
  apply (@resolver_binds_digests_then_values
           reference_crypto (configured (Some "k") (Some "sha256"))
           "UPDATE t SET {%b%}={&b&} WHERE {%a%}={&a&}"
           (mkTemplateParameters (Some [("a", "x")]) (Some [("b", "y")]))
           "k" "sha256" (SHA256.hmac_hex "k")
           "UPDATE t SET b=$2 WHERE a=$1" [SHA256.hmac_hex "k" "x"; "y"]).
  - reflexivity.
  - reflexivity.
  - repeat constructor; simpl; intuition.
  - repeat constructor; simpl; intuition.
  - vm_compute. reflexivity.
Defined.
